(** * Water-ATM dispense controller: a shallow embedding of the firmware

    The development follows the Python sources:
    - [meter.py]: the serial codec (checksum, frames), the meter driver and
      the dispense state machine;
    - [meter_storage.py]: the persistent target store;
    - [meter_mqtts.py]: the command ingest callback;
    - [main.py]: boot-time recovery, the command processor and the
      liveness supervisor.

    Numbers are Python integers ([Z]); a byte string is a [list Z] whose
    elements lie in [0, 256). *)

From Stdlib Require Import ZArith Lia List String Ascii Bool.
From stdpp Require Import base option list gmap strings.

Local Open Scope Z_scope.

(** ** Transport codec (meter.py, "CRC Utils") *)

Module Codec.

(** One pass of the inner [for _ in range(8)] loop of [calculate_crc]. *)
Definition crc_round (crc : Z) : Z :=
  if negb (Z.land crc 0x0001 =? 0)
  then Z.lxor (Z.shiftr crc 1) 0xA001
  else Z.shiftr crc 1.

(** The body of the outer loop: [crc ^= byte], then eight rounds. *)
Definition crc_byte (crc byte : Z) : Z :=
  Nat.iter 8 crc_round (Z.lxor crc byte).

Definition calculate_crc (data : list Z) : Z :=
  fold_left crc_byte data 0xFFFF.

(** [verify_crc(frame)]; the caller passes [None] or an empty answer as
    the empty list, which the length test rejects like [not frame]. *)
Definition verify_crc (frame : list Z) : bool :=
  if (length frame <? 3)%nat then false
  else
    let n := length frame in
    let received_crc :=
      Z.lor (nth (n - 2) frame 0) (Z.shiftl (nth (n - 1) frame 0) 8) in
    calculate_crc (take (n - 2) frame) =? received_crc.

(** [frame += bytearray([crc & 0xFF, (crc >> 8) & 0xFF])], the shared tail
    of [build_modbus_request] and [write_single_register]. *)
Definition append_crc (frame : list Z) : list Z :=
  let crc := calculate_crc frame in
  frame ++ [Z.land crc 0xFF; Z.land (Z.shiftr crc 8) 0xFF].

(** A store into a [bytearray] keeps the low eight bits (MicroPython). *)
Definition to_byte (v : Z) : Z := Z.land v 0xFF.

Definition build_modbus_request
    (address function_code register_address register_count : Z) : list Z :=
  append_crc
    [ to_byte address;
      to_byte function_code;
      Z.land (Z.shiftr register_address 8) 0xFF;
      Z.land register_address 0xFF;
      Z.land (Z.shiftr register_count 8) 0xFF;
      Z.land register_count 0xFF ].

(** The eleven-byte frame that [write_single_register] transmits. *)
Definition write_request (address register_address value : Z) : list Z :=
  append_crc
    [ to_byte address;
      0x10;
      Z.land (Z.shiftr register_address 8) 0xFF;
      Z.land register_address 0xFF;
      0x00;
      0x01;
      0x02;
      Z.land (Z.shiftr value 8) 0xFF;
      Z.land value 0xFF ].

Definition is_byte (b : Z) : Prop := 0 <= b < 256.

Definition is_word16 (c : Z) : Prop := 0 <= c < 65536.

End Codec.


(** ** Printing integers (the [str(address)] of meter_storage.py) *)

Module Decimal.

Definition digit_char (d : Z) : ascii := ascii_of_N (Z.to_N (48 + d)).

(** The decimal digits of [n >= 0], most significant first; [fuel]
    bounds their number. *)
Fixpoint digits (fuel : nat) (n : Z) : list ascii :=
  match fuel with
  | O => []
  | S fuel' =>
      if n <? 10 then [digit_char n]
      else digits fuel' (n / 10) ++ [digit_char (n mod 10)]
  end.

Definition digits_of (n : Z) : list ascii :=
  digits (S (Z.to_nat (Z.log2 n))) n.

(** [str(n)] *)
Definition py_str (n : Z) : string :=
  if n <? 0
  then String "-" (string_of_list_ascii (digits_of (- n)))
  else string_of_list_ascii (digits_of n).

(** [sep.join(segments)] for a one-character separator. *)
Fixpoint join (sep : ascii) (segments : list string) : string :=
  match segments with
  | [] => EmptyString
  | [s] => s
  | s :: rest => String.append s (String sep (join sep rest))
  end.

End Decimal.

(** ** The target store on flash (meter_storage.py, file by file) *)

Module Flash.

(** What [json.load] finds in a file. *)
Inductive Content :=
| Corrupt                                (* no JSON object: the load raises *)
| Json (data : gmap string (option Z)).  (* an object; [None] is [null] *)

Record FS := mkFS {
  mem_dir : bool;                (* ["mem" in os.listdir("/flash")] *)
  files : gmap string Content;   (* the files, by path *)
}.

Definition TARGET_DIR : string := "/flash/mem".

(** [TARGET_DIR + "/target_" + str(address) + ".json"] *)
Definition filename (address : Z) : string :=
  String.append TARGET_DIR
    (String.append "/target_"
       (String.append (Decimal.py_str address) ".json")).

(** Where a call of [save_target_reading] meets an exception, if at all. *)
Inductive Fault :=
| NoFault
| FailsEarly      (* in [listdir], [mkdir] or [open]: nothing is written *)
| FailsInDump.    (* in [json.dump]: the file is open and truncated *)

(** [save_target_reading]; every exception ends in the [except] branch,
    which prints and returns. *)
Definition save_target_reading (fault : Fault) (address value : Z)
    (fs : FS) : FS :=
  match fault with
  | FailsEarly => fs
  | FailsInDump =>
      mkFS true (<[filename address := Corrupt]> (files fs))
  | NoFault =>
      mkFS true
        (<[filename address :=
             Json {[Decimal.py_str address := Some value]}]> (files fs))
  end.

(** [load_target_reading]: [None] when the file is missing ([os.stat]
    raises), when loading raises, and when [data.get] finds nothing. *)
Definition load_target_reading (address : Z) (fs : FS) : option Z :=
  match files fs !! filename address with
  | None => None
  | Some Corrupt => None
  | Some (Json data) =>
      match data !! Decimal.py_str address with
      | Some (Some value) => Some value
      | _ => None
      end
  end.

(** The map from addresses to targets that a file system stands for. *)
Definition represents (fs : FS) (targets : gmap Z Z) : Prop :=
  ∀ address, load_target_reading address fs = targets !! address.

End Flash.

(** ** The machine the firmware runs on *)

(** What the serial line does during one request/response exchange (one
    [uart.write] followed by one [smart_read_modbus]). *)
Inductive Exchange :=
| BusFault                    (* [uart.write] / [uart.any] raises *)
| ReadFault                   (* [uart.read] raises *)
| Arrived (bytes : list Z).   (* receive buffer when [uart.read] runs *)

Inductive FailReason := initial_read_error | meter_timeout.

(** The dictionaries returned by [dispense_batch]. *)
Inductive DispenseResult :=
| Completed (dispensed final_reading : Z)
| Failed (reason : FailReason) (dispensed : Z).

(** A JSON value as far as the command path looks at it (floats,
    booleans and containers are not represented). *)
Inductive jval := JNull | JInt (n : Z) | JStr (s : string).

(** The dictionary [cmd_data] that [datacb] appends to [CMD_QUEUE]. *)
Record Command := mkCommand {
  c_type : jval;
  c_addr : Z;
  c_litres : jval;
  c_device_id : jval;
}.

(** The status of the passive report of [read_meter_only]. *)
Inductive IdleStatus := idle | interrupted_batch_detected.

(** Payloads handed to [mqttPublish]. *)
Inductive Report :=
| resuming_batch (remaining : Z)
| dispense_started (device : jval) (amount : Z)
| dispense_complete (device : jval) (dispensed final_reading : Z)
| dispense_failed (device : jval) (reason : FailReason)
    (dispensed_before_fail : Z)
| valve_force_open (device : jval)
| valve_force_closed (device : jval)
| meter_report (device cumulative_flow_L : Z) (status : IdleStatus).

(** Effects, in the order in which they happen. *)
Inductive Event :=
| Tx (frame : list Z)              (* [uart.write(frame)] *)
| Saved (address value : Z)        (* [save_target_reading] called *)
| Published (r : Report)           (* [mqttPublish] called *)
| Ticked (t : Z)                   (* [last_alive_tick = time()] *)
| Dequeued (item : Command).       (* [globals.CMD_QUEUE.pop(0)] *)

Record World := mkWorld {
  bus : nat → Exchange;       (* the serial line, one entry per exchange *)
  cursor : nat;               (* exchanges performed so far *)
  flash : nat → Flash.Fault;  (* the flash, one entry per target save *)
  writes : nat;               (* calls of [save_target_reading] so far *)
  store : gmap Z Z;           (* what /flash/mem/target_<address>.json hold *)
  trace : list Event;
  CMD_QUEUE : list Command;   (* globals.CMD_QUEUE *)
  last_alive_tick : Z;        (* main.last_alive_tick *)
}.

Definition advance (w : World) : World :=
  mkWorld (bus w) (S (cursor w)) (flash w) (writes w) (store w) (trace w)
    (CMD_QUEUE w) (last_alive_tick w).

Definition emit (e : Event) (w : World) : World :=
  mkWorld (bus w) (cursor w) (flash w) (writes w) (store w) (trace w ++ [e])
    (CMD_QUEUE w) (last_alive_tick w).

Definition count_write (w : World) : World :=
  mkWorld (bus w) (cursor w) (flash w) (S (writes w)) (store w) (trace w)
    (CMD_QUEUE w) (last_alive_tick w).

Definition set_store (s : gmap Z Z) (w : World) : World :=
  mkWorld (bus w) (cursor w) (flash w) (writes w) s (trace w) (CMD_QUEUE w)
    (last_alive_tick w).

Definition set_queue (q : list Command) (w : World) : World :=
  mkWorld (bus w) (cursor w) (flash w) (writes w) (store w) (trace w) q
    (last_alive_tick w).

Definition set_tick (t : Z) (w : World) : World :=
  mkWorld (bus w) (cursor w) (flash w) (writes w) (store w) (trace w)
    (CMD_QUEUE w) t.

(** Outcome of running a piece of the firmware. *)
Inductive Result (A : Type) :=
| Ret (a : A) (w : World)     (* normal return *)
| Raise (w : World)           (* an exception propagates to the caller *)
| Diverge (w : World).        (* still running when the loop budget ran out *)
Arguments Ret {A} a w.
Arguments Raise {A} w.
Arguments Diverge {A} w.

Definition M (A : Type) : Type := World → Result A.

Definition ret {A} (a : A) : M A := λ w, Ret a w.

Definition bind {A B} (m : M A) (k : A → M B) : M B :=
  λ w, match m w with
       | Ret a w' => k a w'
       | Raise w' => Raise w'
       | Diverge w' => Diverge w'
       end.

Definition raise {A} : M A := λ w, Raise w.

Definition diverge {A} : M A := λ w, Diverge w.

(** [try: body except: pass] *)
Definition try_except (body : M unit) : M unit :=
  λ w, match body w with
       | Ret a w' => Ret a w'
       | Raise w' => Ret tt w'
       | Diverge w' => Diverge w'
       end.

Definition modify (f : World → World) : M unit := λ w, Ret tt (f w).

Declare Scope fw_scope.
Delimit Scope fw_scope with fw.
Notation "x <- m ;; k" := (bind m (λ x, k))
  (at level 20, m at level 99, k at level 200, only parsing) : fw_scope.
Notation "m ;;; k" := (bind m (λ _, k))
  (at level 100, k at level 200, right associativity, only parsing) : fw_scope.
Local Open Scope fw_scope.

(** The world in which a run ended, if it ended. *)
Definition final_world {A} (r : Result A) : option World :=
  match r with
  | Ret _ w => Some w
  | Raise w => Some w
  | Diverge _ => None
  end.


(** ** Persistent target store (meter_storage.py)

    The controller sees the target files through the map [store] from
    addresses to the targets a load finds.  A save may fail: the function
    catches every exception and returns, so its caller cannot tell. *)

(** What a call of [save_target_reading] that meets [fault] leaves of the
    targets: the new value, the old record (nothing was written), or no
    readable record (the file was opened and truncated). *)
Definition written (fault : Flash.Fault) (address value : Z)
    (targets : gmap Z Z) : gmap Z Z :=
  match fault with
  | Flash.NoFault => <[address := value]> targets
  | Flash.FailsEarly => targets
  | Flash.FailsInDump => delete address targets
  end.

Definition save_target_reading (address value : Z) : M unit :=
  modify (λ w, emit (Saved address value)
                 (count_write
                    (set_store
                       (written (flash w (writes w)) address value (store w))
                       w))).

Definition load_target_reading (address : Z) : M (option Z) :=
  λ w, Ret (store w !! address) w.

(** ** Meter driver (meter.py) *)

(** [time.sleep]: elapsed time is not part of the state. *)
Definition sleep : M unit := ret tt.

(** [clear_uart_buffer]: stale bytes are thrown away and every exception
    is swallowed; the bytes of an exchange never outlive it here. *)
Definition clear_uart_buffer : M unit := sleep.

Definition uart_write (frame : list Z) : M unit :=
  λ w, match bus w (cursor w) with
       | BusFault => Raise (advance w)
       | _ => Ret tt (emit (Tx frame) w)
       end.

(** [uart.read(n)] on a buffer holding [bytes]: [None] on timeout. *)
Definition uart_read (n : nat) (bytes : list Z) : option (list Z) :=
  match bytes with
  | [] => None
  | _ => Some (take n bytes)
  end.

(** [smart_read_modbus(uart, expected_bytes)]: the polling loop waits,
    then [uart.read] is tried; an exception there gives [None]. *)
Definition smart_read_modbus (expected_bytes : nat) : M (option (list Z)) :=
  λ w, match bus w (cursor w) with
       | BusFault => Raise (advance w)
       | ReadFault => Ret None (advance w)
       | Arrived bytes => Ret (uart_read expected_bytes bytes) (advance w)
       end.

(** [response and verify_crc(response)] as a truth value. *)
Definition acknowledged (response : option (list Z)) : bool :=
  match response with
  | Some r => negb (length r =? 0)%nat && Codec.verify_crc r
  | None => false
  end.

Definition write_single_register (address register_address value : Z) : M bool :=
  clear_uart_buffer ;;;
  uart_write (Codec.write_request address register_address value) ;;;
  response <- smart_read_modbus 8 ;;
  ret (acknowledged response).

(** The test and extraction at the end of [read_cumulative_flow]. *)
Definition decode_flow (address : Z) (response : option (list Z)) : option Z :=
  match response with
  | Some r =>
      if negb (length r =? 0)%nat && (length r =? 9)%nat && Codec.verify_crc r
      then if nth 0 r 0 =? address
           then Some (Z.lor (Z.shiftl (nth 3 r 0) 8) (nth 4 r 0))
           else None
      else None
  | None => None
  end.

Definition read_cumulative_flow (address : Z) : M (option Z) :=
  clear_uart_buffer ;;;
  uart_write (Codec.build_modbus_request address 0x03 0x000E 0x02) ;;;
  response <- smart_read_modbus 9 ;;
  ret (decode_flow address response).

Definition open_valve (device_address : Z) : M unit :=
  write_single_register device_address 0x0060 0x0001 ;;; sleep.

Definition close_valve (device_address : Z) : M unit :=
  write_single_register device_address 0x0060 0x0002 ;;; sleep.

(** [for attempt in range(retries)] *)
Fixpoint get_valid_volume (address : Z) (retries : nat) : M (option Z) :=
  match retries with
  | O => ret None
  | S retries' =>
      volume_value <- read_cumulative_flow address ;;
      match volume_value with
      | Some v => ret (Some v)
      | None => sleep ;;; get_valid_volume address retries'
      end
  end.

(** ** Dispense controller (meter.py, [dispense_batch]) *)

Definition max_errors : Z := 5.

(** The [while True] loop, with its three loop variables; [fuel] bounds
    the number of iterations the model follows. *)
Fixpoint monitoring (fuel : nat) (address start_vol target_vol : Z)
    (last_vol consecutive_errors : Z) : M DispenseResult :=
  match fuel with
  | O => diverge
  | S fuel' =>
      current_vol <- read_cumulative_flow address ;;
      match current_vol with
      | None =>
          let consecutive_errors := consecutive_errors + 1 in
          if max_errors <=? consecutive_errors
          then close_valve address ;;;
               ret (Failed meter_timeout (last_vol - start_vol))
          else sleep ;;;
               monitoring fuel' address start_vol target_vol
                 last_vol consecutive_errors
      | Some current_vol =>
          if target_vol <=? current_vol
          then close_valve address ;;;
               save_target_reading address current_vol ;;;
               ret (Completed (current_vol - start_vol) current_vol)
          else sleep ;;;
               monitoring fuel' address start_vol target_vol current_vol 0
      end
  end.

Definition dispense_batch (fuel : nat) (address liters_to_dispense : Z)
    : M DispenseResult :=
  start_vol <- get_valid_volume address 5 ;;
  match start_vol with
  | None => ret (Failed initial_read_error 0)
  | Some start_vol =>
      let target_vol := start_vol + liters_to_dispense in
      save_target_reading address target_vol ;;;
      open_valve address ;;;
      sleep ;;;
      monitoring fuel address start_vol target_vol start_vol 0
  end.

(** ** Connectivity boundary (meter_mqtts.py) *)

(** [mqttPublish]: the client call sits in a bare [try/except]. *)
Definition mqttPublish (r : Report) : M unit := modify (emit (Published r)).

Module Text.

(** [s.split(sep)] for a one-character separator. *)
Fixpoint split (sep : ascii) (s : string) : list string :=
  match s with
  | EmptyString => [EmptyString]
  | String c s' =>
      if Ascii.eqb c sep then EmptyString :: split sep s'
      else match split sep s' with
           | seg :: segs => String c seg :: segs
           | [] => [String c EmptyString]
           end
  end.

(** [sep in s] *)
Fixpoint contains (sep : ascii) (s : string) : bool :=
  match s with
  | EmptyString => false
  | String c s' => Ascii.eqb c sep || contains sep s'
  end.

(** [s.split(sep)[-1]] *)
Definition last_segment (sep : ascii) (s : string) : string :=
  List.last (split sep s) EmptyString.

Definition is_space (c : ascii) : bool :=
  let n := N_of_ascii c in ((9 <=? n) && (n <=? 13) || (n =? 32))%N.

Definition digit_of (c : ascii) : option Z :=
  let n := Z.of_N (N_of_ascii c) in
  if (48 <=? n) && (n <=? 57) then Some (n - 48) else None.

Fixpoint digits_value (acc : Z) (cs : list ascii) : option Z :=
  match cs with
  | [] => Some acc
  | c :: cs' =>
      match digit_of c with
      | Some d => digits_value (10 * acc + d) cs'
      | None => None
      end
  end.

Fixpoint lstrip (cs : list ascii) : list ascii :=
  match cs with
  | c :: cs' => if is_space c then lstrip cs' else cs
  | [] => []
  end.

Definition strip (cs : list ascii) : list ascii :=
  rev (lstrip (rev (lstrip cs))).

Definition is_digit (c : ascii) : bool :=
  match digit_of c with
  | Some _ => true
  | None => false
  end.

(** The characters of a numeral without its digit separators: a single
    underscore may stand between two digits, and nowhere else;
    [after_digit] tells whether the character before [cs] is a digit. *)
Fixpoint ungroup (after_digit : bool) (cs : list ascii)
    : option (list ascii) :=
  match cs with
  | [] => Some []
  | c :: cs' =>
      if Ascii.eqb c "_" then
        match cs' with
        | c' :: _ =>
            if after_digit && is_digit c' then ungroup false cs' else None
        | [] => None
        end
      else cons c <$> ungroup (is_digit c) cs'
  end.

Definition unsigned_value (cs : list ascii) : option Z :=
  match ungroup false cs with
  | Some (d :: ds) => digits_value 0 (d :: ds)
  | _ => None
  end.


(** [int(s, 10)] on ASCII text: surrounding blanks, an optional sign,
    then decimal digits, which single underscores may separate; [None]
    stands for [ValueError].  Outside ASCII the interpreter also takes
    other blanks and digits, and it may bound the length of a numeral;
    neither is represented. *)
Definition py_int (s : string) : option Z :=
  match strip (list_ascii_of_string s) with
  | "+"%char :: ds => unsigned_value ds
  | "-"%char :: ds => Z.opp <$> unsigned_value ds
  | ds => unsigned_value ds
  end.


End Text.

(** [get_device_Hex]; a [deviceID] that is not a string makes the
    membership test raise. *)
Definition get_device_Hex (deviceID : jval) : M (option Z) :=
  match deviceID with
  | JStr s =>
      if Text.contains "-" s
      then ret (Text.py_int (Text.last_segment "-" s))
      else ret None
  | _ => raise
  end.

(** The decoded MQTT message [json.loads(msg[2])]. *)
Inductive Inbound :=
| NotAnObject                                (* no JSON object came out *)
| Object (message litres deviceID : jval).   (* [payload.get] of each key *)

(** [globals.CMD_QUEUE.append(cmd_data)] *)
Definition enqueue (c : Command) : M unit :=
  modify (λ w, set_queue (CMD_QUEUE w ++ [c]) w).

Definition datacb (msg : Inbound) : M unit :=
  try_except
    match msg with
    | NotAnObject => raise
    | Object message litres deviceID =>
        hex_address <- get_device_Hex deviceID ;;
        match hex_address with
        | None => ret tt                 (* [if not hex_address: return] *)
        | Some hex_address =>
            if hex_address =? 0 then ret tt
            else enqueue (mkCommand message hex_address litres deviceID)
        end
    end.

(** ** Recovery and command processing (main.py) *)

(** The body of the [for addr in SLAVE_ADDRESSES] loop, inside its [try]. *)
Definition recover_address (fuel : nat) (addr : Z) : M unit :=
  saved_target <- load_target_reading addr ;;
  match saved_target with
  | None =>
      current_vol <- get_valid_volume addr 5 ;;
      match current_vol with
      | Some current_vol => save_target_reading addr current_vol
      | None => ret tt
      end
  | Some saved_target =>
      current_vol <- get_valid_volume addr 5 ;;
      match current_vol with
      | None => ret tt
      | Some current_vol =>
          if current_vol <? saved_target
          then
            let remaining := saved_target - current_vol in
            mqttPublish (resuming_batch remaining) ;;;
            _ <- dispense_batch fuel addr remaining ;;
            ret tt
          else ret tt
      end
  end.

Fixpoint check_for_interrupted_jobs (fuel : nat) (SLAVE_ADDRESSES : list Z)
    : M unit :=
  match SLAVE_ADDRESSES with
  | [] => ret tt
  | addr :: rest =>
      try_except (recover_address fuel addr) ;;;
      check_for_interrupted_jobs fuel rest
  end.

Definition is_cmd (cmd : jval) (name : string) : bool :=
  match cmd with
  | JStr s => String.eqb s name
  | _ => false
  end.

(** What happens to one popped [item], inside the [try] of the loop. *)
Definition process_item (fuel : nat) (item : Command) : M unit :=
  let cmd := c_type item in
  let addr := c_addr item in
  let dev_id := c_device_id item in
  if is_cmd cmd "success" then
    match c_litres item with
    | JInt litres =>
        if 0 <? litres then
          mqttPublish (dispense_started dev_id litres) ;;;
          result <- dispense_batch fuel addr litres ;;
          match result with
          | Completed dispensed final_reading =>
              mqttPublish (dispense_complete dev_id dispensed final_reading)
          | Failed reason dispensed =>
              mqttPublish (dispense_failed dev_id reason dispensed)
          end
        else ret tt
    | _ => raise                       (* [litres > 0] on a non-number *)
    end
  else if is_cmd cmd "valve_open" then
    open_valve addr ;;; mqttPublish (valve_force_open dev_id)
  else if is_cmd cmd "valve_close" then
    close_valve addr ;;; mqttPublish (valve_force_closed dev_id)
  else ret tt.

(** [while len(globals.CMD_QUEUE) > 0]: pop the head, process it, sleep. *)
Fixpoint process_command_queue (fuel : nat) : M unit :=
  λ w,
    match CMD_QUEUE w with
    | [] => Ret tt w
    | item :: rest =>
        match fuel with
        | O => Diverge w
        | S fuel' =>
            (try_except (process_item fuel' item) ;;;
             sleep ;;;
             process_command_queue fuel')
              (emit (Dequeued item) (set_queue rest w))
        end
    end.

(** ** Liveness supervisor (main.py) *)

(** The test of [supervisor_thread]: feed the watchdog at time [now]? *)
Definition supervisor_feeds (now : Z) (w : World) : bool :=
  now - last_alive_tick w <? 1200.

(** [last_alive_tick = time()] in [monitor_loop]. *)
Definition report_alive (now : Z) : M unit :=
  modify (λ w, emit (Ticked now) (set_tick now w)).

(** [read_meter_only] (meter.py): the passive poll of the idle loop. *)
Fixpoint read_meter_only (addresses : list Z) : M unit :=
  match addresses with
  | [] => ret tt
  | address :: rest =>
      cumulative <- get_valid_volume address 5 ;;
      match cumulative with
      | None => read_meter_only rest
      | Some cumulative =>
          target <- load_target_reading address ;;
          let status_msg :=
            match target with
            | Some t =>
                if negb (t =? 0) && (cumulative <? t)
                then interrupted_batch_detected
                else idle
            | None => idle
            end in
          mqttPublish (meter_report address cumulative status_msg) ;;;
          read_meter_only rest
      end
  end.

(** How a pass of the controller loop ends. *)
Inductive PassEnd := Continue | Reboot.

(** One pass of the [while True] body of [monitor_loop].  The values of
    the three [time()] calls and the answers of the collaborators (GSM
    status, MQTT status) are inputs; [safe_gc] and
    [check_scheduled_restart] touch none of the modelled state and are
    left out. An exception inside the pass reboots the device. *)
Definition monitor_pass (fuel : nat) (t1 t2 t3 : Z)
    (gsm_up mqtt_connected : bool) (SLAVE_ADDRESSES : list Z) : M PassEnd :=
  λ w,
    match
      (report_alive t1 ;;;
       process_command_queue fuel ;;;
       if negb gsm_up then ret Reboot
       else
         (if mqtt_connected
          then try_except (read_meter_only SLAVE_ADDRESSES)
          else ret tt) ;;;
         report_alive t2 ;;;
         sleep ;;;
         report_alive t3 ;;;
         ret Continue) w
    with
    | Ret e w' => Ret e w'
    | Raise w' => Ret Reboot w'
    | Diverge w' => Diverge w'
    end.

(** ** Vocabulary for statements about runs *)

Definition read_request (address : Z) : list Z :=
  Codec.build_modbus_request address 0x03 0x000E 0x02.

Definition open_command (address : Z) : list Z :=
  Codec.write_request address 0x0060 0x0001.

Definition close_command (address : Z) : list Z :=
  Codec.write_request address 0x0060 0x0002.

(** The world after one exchange in which [frame] was transmitted. *)
Definition exchanged (frame : list Z) (w : World) : World :=
  advance (emit (Tx frame) w).

(** The world after [save_target_reading address value]. *)
Definition saved (address value : Z) (w : World) : World :=
  emit (Saved address value)
    (count_write
       (set_store (written (flash w (writes w)) address value (store w)) w)).

Definition line_ok (e : Exchange) : bool :=
  match e with
  | BusFault => false
  | _ => true
  end.

(** The value [read_cumulative_flow] extracts from an exchange. *)
Definition reading (address : Z) (e : Exchange) : option Z :=
  match e with
  | Arrived bytes => decode_flow address (uart_read 9 bytes)
  | _ => None
  end.

(** The [i]-th read result from exchange [k] on. *)
Definition read_at (address : Z) (w : World) (k i : nat) : option Z :=
  reading address (bus w (k + i)).

(** Frames on the wire, told apart by function code, register and value. *)
Inductive FrameKind := ReadRequest | ValveOpen | ValveClose | OtherFrame.

Definition frame_kind (frame : list Z) : FrameKind :=
  match frame with
  | _ :: 3 :: _ => ReadRequest
  | _ :: 16 :: 0 :: 96 :: 0 :: 1 :: 2 :: 0 :: 1 :: _ => ValveOpen
  | _ :: 16 :: 0 :: 96 :: 0 :: 1 :: 2 :: 0 :: 2 :: _ => ValveClose
  | _ => OtherFrame
  end.

(** The actions of the dispense state machine visible in a trace. *)
Inductive Action :=
| Persist (address value : Z)
| OpenValve (unit_byte : Z)
| CloseValve (unit_byte : Z).

Definition observe (e : Event) : option Action :=
  match e with
  | Saved address value => Some (Persist address value)
  | Tx frame =>
      match frame_kind frame with
      | ValveOpen => Some (OpenValve (nth 0 frame 0))
      | ValveClose => Some (CloseValve (nth 0 frame 0))
      | _ => None
      end
  | _ => None
  end.

Definition actions (tr : list Event) : list Action := omap observe tr.

(** The events added between two worlds of one run. *)
Definition since (w w' : World) : list Event :=
  drop (length (trace w)) (trace w').

Definition is_close (a : Action) : bool :=
  match a with
  | CloseValve _ => true
  | _ => false
  end.

Definition is_tick (e : Event) : bool :=
  match e with
  | Ticked _ => true
  | _ => false
  end.

Definition is_pop (e : Event) : bool :=
  match e with
  | Dequeued _ => true
  | _ => false
  end.

(** The claim's consecutive-error counter: one more on an absent reading,
    back to zero on a successful one. *)
Definition count_error (c : Z) (r : option Z) : Z :=
  match r with
  | None => c + 1
  | Some _ => 0
  end.

Definition error_counter (rs : list (option Z)) : Z :=
  fold_left count_error rs 0.

(** The last successful reading of [rs], or [start] when there is none. *)
Definition last_known (start : Z) (rs : list (option Z)) : Z :=
  fold_left (λ last r, default last r) rs start.

(** The first [n] monitoring read results from exchange [k] on. *)
Definition readings (address : Z) (w : World) (k n : nat) : list (option Z) :=
  map (read_at address w k) (seq 0 n).

(** An exchange that completes and yields no reading. *)
Definition absent (address : Z) (e : Exchange) : bool :=
  line_ok e &&
  match reading address e with
  | None => true
  | Some _ => false
  end.

(** The world after [n] read exchanges. *)
Definition polled (address : Z) (n : nat) (w : World) : World :=
  Nat.iter n (exchanged (read_request address)) w.

(** ** Test benches: scripted serial lines *)

(** A line that plays the listed exchanges and is silent afterwards. *)
Definition script (es : list Exchange) : nat → Exchange :=
  λ k, nth k es (Arrived []).

(** A freshly booted device on a scripted line, with the given store and
    a flash that works. *)
Definition bench (es : list Exchange) (targets : gmap Z Z) : World :=
  mkWorld (script es) 0 (λ _, Flash.NoFault) 0 targets [] [] 0.

(** The same device on a flash whose next saves meet the listed faults. *)
Definition wear (faults : list Flash.Fault) (w : World) : World :=
  mkWorld (bus w) (cursor w) (λ k, nth k faults Flash.NoFault) (writes w)
    (store w) (trace w) (CMD_QUEUE w) (last_alive_tick w).

(** The nine-byte answer of the meter at [address] holding [value]. *)
Definition meter_reply (address value : Z) : Exchange :=
  Arrived (Codec.append_crc
             [address; 3; 4; Z.shiftr value 8; Z.land value 0xFF; 0; 0]).

(** The eight-byte acknowledgment of a register write. *)
Definition write_ack (address : Z) : Exchange :=
  Arrived (Codec.append_crc [address; 16; 0; 96; 0; 1]).

(** ** Frame conditions

    [frame keep w w']: from [w] to [w'] the serial line and the liveness
    timestamp are the same and the trace has grown by events none of
    which writes the timestamp; with [keep = true] the command queue is
    the same too and none of the events is a pop. *)
Definition quiet (keep : bool) (e : Event) : bool :=
  negb (is_tick e) && (negb (is_pop e) || negb keep).

Definition frame (keep : bool) (w w' : World) : Prop :=
  bus w' = bus w
  ∧ last_alive_tick w' = last_alive_tick w
  ∧ (∃ evs, trace w' = trace w ++ evs ∧ forallb (quiet keep) evs = true)
  ∧ (keep = true → CMD_QUEUE w' = CMD_QUEUE w).

(** A computation all of whose terminating runs satisfy [frame]. *)
Definition Framed {A} (keep : bool) (m : M A) : Prop :=
  ∀ w w', final_world (m w) = Some w' → frame keep w w'.

(** ** The two users of [CMD_QUEUE]

    The MQTT thread runs [datacb], which appends to the queue; the
    controller thread runs the loop of [process_command_queue], which
    pops its head.  [list.append] and [list.pop(0)] are taken to be
    atomic. *)






(** A result with its world changed by [f]. *)
Definition on_world {A} (f : World → World) (r : Result A) : Result A :=
  match r with
  | Ret a w => Ret a (f w)
  | Raise w => Raise (f w)
  | Diverge w => Diverge (f w)
  end.


(** The values written to [last_alive_tick] along a trace, in order. *)
Definition ticks (tr : list Event) : list Z :=
  omap (λ e, match e with
             | Ticked t => Some t
             | _ => None
             end) tr.

(** ** Further vocabulary *)

(** Undoing one round of the checksum: bit 15 of the result tells whether
    the constant was mixed in, that is, whether the low bit was set. *)
Definition crc_unround (y : Z) : Z :=
  if Z.testbit y 15 then 2 * Z.lxor y 0xA001 + 1 else 2 * y.

(** ** Version comparison of the updater (ota_update.py) *)

Module Ota.




End Ota.

(** ** Vocabulary for the command path and the idle poll *)

(** The payloads published along a trace, in order. *)
Definition reports (tr : list Event) : list Report :=
  omap (λ e, match e with
             | Published r => Some r
             | _ => None
             end) tr.

(** The report that closes a dispense with outcome [r]. *)
Definition terminal_report (dev_id : jval) (r : DispenseResult) : Report :=
  match r with
  | Completed dispensed final_reading =>
      dispense_complete dev_id dispensed final_reading
  | Failed reason dispensed => dispense_failed dev_id reason dispensed
  end.

(** Does [process_item] call [dispense_batch] for this item? *)
Definition needs_dispense (item : Command) : bool :=
  is_cmd (c_type item) "success" &&
  match c_litres item with
  | JInt litres => 0 <? litres
  | _ => false
  end.

(** A computation all of whose terminating runs are related by [R]. *)
Definition Keeps {A} (R : World → World → Prop) (m : M A) : Prop :=
  ∀ w w', final_world (m w) = Some w' → R w w'.

(** An idle report for one of [addresses], flagged as an interrupted
    batch exactly when the stored target is non-zero and above the
    reported volume. *)
Definition idle_report_ok (addresses : list Z) (targets : gmap Z Z)
    (r : Report) : Prop :=
  ∃ address cumulative status,
    r = meter_report address cumulative status
    ∧ address ∈ addresses
    ∧ (status = interrupted_batch_detected
       ↔ ∃ t, targets !! address = Some t ∧ t ≠ 0 ∧ cumulative < t).

(** From [w] to [w'] nothing was saved, queued or sent to a valve, and
    what was published are proper idle reports. *)
Definition passive (addresses : list Z) (w w' : World) : Prop :=
  store w' = store w
  ∧ CMD_QUEUE w' = CMD_QUEUE w
  ∧ ∃ evs, trace w' = trace w ++ evs
           ∧ actions evs = []
           ∧ Forall (idle_report_ok addresses (store w)) (reports evs).

(** ** The valve test script (meter_run.py) *)

(** [main()]: one [open_valve] per address, each in its own [try]. *)
Fixpoint meter_run_main (SLAVE_ADDRESSES : list Z) : M unit :=
  match SLAVE_ADDRESSES with
  | [] => sleep
  | addr :: rest =>
      try_except (open_valve addr) ;;; meter_run_main rest
  end.

(** The open commands that get onto a line from exchange [k] on, one
    exchange per address. *)
Fixpoint opened (w : World) (k : nat) (addresses : list Z) : list Action :=
  match addresses with
  | [] => []
  | addr :: rest =>
      (if line_ok (bus w k) then [OpenValve (Codec.to_byte addr)] else [])
      ++ opened w (S k) rest
  end.

(** An action that saves a target for one of [addresses]. *)
Definition persists_one_of (addresses : list Z) (act : Action) : Prop :=
  ∃ address value, act = Persist address value ∧ address ∈ addresses.

(** ** The recovery rule, in the words of the specification *)

(** Handling one address takes the device from [w] to the second world:
    without a stored target the live volume is read and, if readable,
    saved as the new target, otherwise the address is skipped; with a
    target [t] and a live reading [c], the dispense controller is run
    with [t - c] when [t > c] and nothing is done when [t <= c]; an
    exception ends the handling of this address only. *)
Inductive recovers (fuel : nat) (addr : Z) (w : World) : World → Prop :=
| recovers_init c w1 :
    store w !! addr = None →
    get_valid_volume addr 5 w = Ret (Some c) w1 →
    recovers fuel addr w (saved addr c w1)
| recovers_skip w1 :
    store w !! addr = None →
    get_valid_volume addr 5 w = Ret None w1 →
    recovers fuel addr w w1
| recovers_resume t c w1 w' :
    store w !! addr = Some t →
    get_valid_volume addr 5 w = Ret (Some c) w1 →
    c < t →
    final_world
      (dispense_batch fuel addr (t - c)
         (emit (Published (resuming_batch (t - c))) w1)) = Some w' →
    recovers fuel addr w w'
| recovers_clean t c w1 :
    store w !! addr = Some t →
    get_valid_volume addr 5 w = Ret (Some c) w1 →
    t <= c →
    recovers fuel addr w w1
| recovers_unreadable t w1 :
    store w !! addr = Some t →
    get_valid_volume addr 5 w = Ret None w1 →
    recovers fuel addr w w1
| recovers_caught w1 :
    get_valid_volume addr 5 w = Raise w1 →
    recovers fuel addr w w1.

(** Every configured address is handled, in the order of the list. *)
Fixpoint recovery (fuel : nat) (addresses : list Z) (w w' : World) : Prop :=
  match addresses with
  | [] => w' = w
  | addr :: rest =>
      ∃ w1, recovers fuel addr w w1 ∧ recovery fuel rest w1 w'
  end.

(** * Properties *)

(** ** Checksum *)

Section crc_facts.
Import Codec.

Lemma lxor_word16 a b : is_word16 a → is_word16 b → is_word16 (Z.lxor a b).
Proof.
  unfold is_word16. intros [Ha Ha'] [Hb Hb']. split.
  - apply Z.lxor_nonneg. tauto.
  - destruct (Z.eq_dec (Z.lxor a b) 0) as [->|Hne]; [lia|].
    assert (0 < Z.lxor a b) by (pose proof (proj2 (Z.lxor_nonneg a b)); lia).
    change 65536 with (2 ^ 16). apply Z.log2_lt_pow2; [lia|].
    pose proof (Z.log2_lxor a b Ha Hb) as Hl.
    assert (Z.log2 a < 16).
    { destruct (Z.eq_dec a 0) as [->|]; [simpl; lia|].
      apply Z.log2_lt_pow2; lia. }
    assert (Z.log2 b < 16).
    { destruct (Z.eq_dec b 0) as [->|]; [simpl; lia|].
      apply Z.log2_lt_pow2; lia. }
    lia.
Qed.

Lemma crc_round_word16 c : is_word16 c → is_word16 (crc_round c).
Proof.
  intros Hc. unfold crc_round.
  assert (Hs : is_word16 (Z.shiftr c 1)).
  { unfold is_word16 in *. rewrite Z.shiftr_div_pow2 by lia.
    change (2 ^ 1) with 2. split.
    - apply Z.div_pos; lia.
    - apply Z.div_lt_upper_bound; lia. }
  destruct (negb _); [|done].
  apply lxor_word16; [done|]. unfold is_word16. lia.
Qed.

Lemma crc_byte_word16 c b : is_word16 c → is_byte b → is_word16 (crc_byte c b).
Proof.
  intros Hc Hb. unfold crc_byte.
  assert (H0 : is_word16 (Z.lxor c b)).
  { apply lxor_word16; [done|]. unfold is_byte, is_word16 in *. lia. }
  generalize dependent (Z.lxor c b). intros x Hx.
  do 8 (rewrite Nat.iter_succ; apply crc_round_word16).
  done.
Qed.

Lemma fold_crc_word16 data c :
  is_word16 c → Forall is_byte data → is_word16 (fold_left crc_byte data c).
Proof.
  intros Hc Hd. revert c Hc.
  induction Hd as [|b data Hb _ IH]; intros c Hc; simpl; [done|].
  apply IH. by apply crc_byte_word16.
Qed.

Lemma calculate_crc_word16 data :
  Forall is_byte data → is_word16 (calculate_crc data).
Proof.
  intros Hd. apply fold_crc_word16; [|done]. unfold is_word16. lia.
Qed.

(** Splitting a 16-bit value into two bytes and gluing them back. *)
Lemma word16_bytes c :
  is_word16 c →
  Z.lor (Z.land c 0xFF) (Z.shiftl (Z.land (Z.shiftr c 8) 0xFF) 8) = c.
Proof.
  intros [Hc Hc']. apply Z.bits_inj'. intros n Hn.
  rewrite Z.lor_spec, Z.land_spec.
  change 0xFF with (Z.ones 8).
  destruct (Z.lt_ge_cases n 8) as [Hlt|Hge].
  - rewrite Z.shiftl_spec_low by lia.
    rewrite Z.ones_spec_low by lia.
    by rewrite andb_true_r, orb_false_r.
  - rewrite Z.shiftl_spec by lia.
    rewrite Z.land_spec, Z.shiftr_spec by lia.
    rewrite (Z.ones_spec_high 8 n) by lia.
    rewrite andb_false_r, orb_false_l.
    replace (n - 8 + 8) with n by lia.
    destruct (Z.lt_ge_cases n 16) as [Hlt|Hge'].
    + rewrite Z.ones_spec_low by lia. by rewrite andb_true_r.
    + rewrite Z.ones_spec_high by lia. rewrite andb_false_r.
      destruct (Z.eq_dec c 0) as [->|Hne]; [by rewrite Z.bits_0|].
      symmetry. apply Z.bits_above_log2; [lia|].
      assert (Z.log2 c < 16) by (apply Z.log2_lt_pow2; lia). lia.
Qed.

Lemma verify_crc_append data lo hi :
  data ≠ [] →
  verify_crc (data ++ [lo; hi])
  = (calculate_crc data =? Z.lor lo (Z.shiftl hi 8)).
Proof.
  intros Hne. unfold verify_crc.
  assert (Hlen : length (data ++ [lo; hi]) = S (S (length data))).
  { rewrite length_app. simpl. lia. }
  rewrite Hlen.
  destruct data as [|b data]; [done|].
  replace (S (S (length (b :: data))) <? 3)%nat with false
    by (symmetry; apply Nat.ltb_ge; simpl; lia).
  replace (S (S (length (b :: data))) - 2)%nat with (length (b :: data)) by lia.
  replace (S (S (length (b :: data))) - 1)%nat with (S (length (b :: data))) by lia.
  rewrite take_app_length.
  rewrite (app_nth2 (b :: data)) by lia.
  rewrite (app_nth2 (b :: data)) by lia.
  rewrite Nat.sub_diag.
  replace (S (length (b :: data)) - length (b :: data))%nat with 1%nat by lia.
  reflexivity.
Qed.

Lemma verify_crc_short frame :
  (length frame < 3)%nat → verify_crc frame = false.
Proof.
  intros Hlen. unfold verify_crc.
  by apply Nat.ltb_lt in Hlen as ->.
Qed.

Lemma verify_append_crc data :
  data ≠ [] → Forall is_byte data → verify_crc (append_crc data) = true.
Proof.
  intros Hne Hd. unfold append_crc.
  rewrite verify_crc_append by done.
  apply Z.eqb_eq. symmetry. apply word16_bytes.
  by apply calculate_crc_word16.
Qed.

(** C5 (as amended): a frame made of a non-empty byte sequence followed by
    its checksum, low byte first, passes [verify_crc]; any frame shorter
    than three bytes is rejected. *)
Theorem crc_round_trip (data frame : list Z) :
  (data ≠ [] → Forall is_byte data → verify_crc (append_crc data) = true)
  ∧ ((length frame < 3)%nat → verify_crc frame = false).
Proof.
  split; [apply verify_append_crc | apply verify_crc_short].
Qed.

Lemma crc_round_trip_witness :
  verify_crc (append_crc [6; 3; 0; 14; 0; 2]) = true
  ∧ verify_crc [255; 255] = false.
Proof.
  split.
  - apply (proj1 (crc_round_trip [6; 3; 0; 14; 0; 2] [])).
    + discriminate.
    + unfold is_byte. repeat constructor; lia.
  - apply (proj2 (crc_round_trip [] [255; 255])). simpl. lia.
Defined.

(** C5 (as stated) fails on the empty byte sequence: its checksum frame is
    the two bytes FF FF, which the length test rejects. *)
Lemma crc_empty_rejected :
  Forall is_byte [] ∧ append_crc [] = [255; 255]
  ∧ verify_crc (append_crc []) = false.
Proof. split; [constructor | split; reflexivity]. Qed.

End crc_facts.

(** ** Meter driver *)

Arguments Codec.calculate_crc : simpl never.
Arguments Codec.append_crc : simpl never.
Arguments Codec.build_modbus_request : simpl never.
Arguments Codec.write_request : simpl never.

Ltac unfold_fw :=
  unfold clear_uart_buffer, uart_write, smart_read_modbus,
    save_target_reading, load_target_reading, mqttPublish, enqueue,
    report_alive in *;
  unfold sleep, modify, try_except in *;
  unfold bind, ret, raise, diverge in *;
  cbv beta in *.

(** Fields of updated worlds. *)
Ltac fields :=
  cbn [bus cursor flash writes store trace CMD_QUEUE last_alive_tick
       advance emit count_write set_store set_queue set_tick
       exchanged saved] in *.

Lemma ret_value {A} (a b : A) w w' : Ret a w = Ret b w' → a = b.
Proof. by intros [= ->]. Qed.


Lemma read_cumulative_flow_run address w :
  read_cumulative_flow address w =
  match bus w (cursor w) with
  | BusFault => Raise (advance w)
  | e => Ret (reading address e) (exchanged (read_request address) w)
  end.
Proof.
  unfold read_cumulative_flow. unfold_fw.
  destruct (bus w (cursor w)) eqn:E; fields; rewrite ?E; reflexivity.
Qed.

Lemma write_single_register_run address reg value w :
  write_single_register address reg value w =
  match bus w (cursor w) with
  | BusFault => Raise (advance w)
  | ReadFault =>
      Ret false (exchanged (Codec.write_request address reg value) w)
  | Arrived bytes =>
      Ret (acknowledged (uart_read 8 bytes))
        (exchanged (Codec.write_request address reg value) w)
  end.
Proof.
  unfold write_single_register. unfold_fw.
  destruct (bus w (cursor w)) eqn:E; fields; rewrite ?E; reflexivity.
Qed.

Lemma open_valve_run address w :
  open_valve address w =
  if line_ok (bus w (cursor w))
  then Ret tt (exchanged (open_command address) w)
  else Raise (advance w).
Proof.
  unfold open_valve, bind. rewrite write_single_register_run.
  destruct (bus w (cursor w)); reflexivity.
Qed.

Lemma close_valve_run address w :
  close_valve address w =
  if line_ok (bus w (cursor w))
  then Ret tt (exchanged (close_command address) w)
  else Raise (advance w).
Proof.
  unfold close_valve, bind. rewrite write_single_register_run.
  destruct (bus w (cursor w)); reflexivity.
Qed.

Lemma read_ok address w :
  line_ok (bus w (cursor w)) = true →
  read_cumulative_flow address w
  = Ret (reading address (bus w (cursor w)))
      (exchanged (read_request address) w).
Proof.
  intros H. rewrite read_cumulative_flow_run.
  by destruct (bus w (cursor w)).
Qed.

Lemma reading_line_ok address e v : reading address e = Some v → line_ok e = true.
Proof. by destruct e. Qed.

Lemma frame_kind_read address : frame_kind (read_request address) = ReadRequest.
Proof. reflexivity. Qed.

Lemma frame_kind_open address : frame_kind (open_command address) = ValveOpen.
Proof. reflexivity. Qed.

Lemma frame_kind_close address : frame_kind (close_command address) = ValveClose.
Proof. reflexivity. Qed.

Lemma read_absent address w :
  absent address (bus w (cursor w)) = true →
  read_cumulative_flow address w
  = Ret None (exchanged (read_request address) w).
Proof.
  unfold absent. intros [Hok Hr]%andb_true_iff.
  rewrite read_ok by done. by destruct (reading _ _).
Qed.

Lemma read_some address w v :
  reading address (bus w (cursor w)) = Some v →
  read_cumulative_flow address w
  = Ret (Some v) (exchanged (read_request address) w).
Proof.
  intros Hr. rewrite read_ok by (by eapply reading_line_ok). by rewrite Hr.
Qed.

Lemma read_inv address w r w' :
  read_cumulative_flow address w = Ret r w' →
  w' = exchanged (read_request address) w
  ∧ line_ok (bus w (cursor w)) = true
  ∧ r = reading address (bus w (cursor w)).
Proof.
  rewrite read_cumulative_flow_run.
  destruct (bus w (cursor w)); [done|..]; intros [= <- <-]; done.
Qed.

Lemma polled_S address n w :
  polled address (S n) w = polled address n (exchanged (read_request address) w).
Proof. unfold polled. by rewrite Nat.iter_succ_r. Qed.

Lemma polled_bus address n w : bus (polled address n w) = bus w.
Proof. induction n; [done|]. unfold polled in *. simpl. by fields. Qed.

Lemma polled_cursor address n w :
  cursor (polled address n w) = (cursor w + n)%nat.
Proof.
  induction n; [simpl; lia|]. unfold polled in *. simpl. fields.
  rewrite IHn. lia.
Qed.

Lemma polled_store address n w : store (polled address n w) = store w.
Proof. induction n; [done|]. unfold polled in *. simpl. by fields. Qed.

Lemma polled_flash address n w : flash (polled address n w) = flash w.
Proof. induction n; [done|]. unfold polled in *. simpl. by fields. Qed.

Lemma polled_writes address n w : writes (polled address n w) = writes w.
Proof. induction n; [done|]. unfold polled in *. simpl. by fields. Qed.

Lemma polled_queue address n w : CMD_QUEUE (polled address n w) = CMD_QUEUE w.
Proof. induction n; [done|]. unfold polled in *. simpl. by fields. Qed.

Lemma polled_tick address n w :
  last_alive_tick (polled address n w) = last_alive_tick w.
Proof. induction n; [done|]. unfold polled in *. simpl. by fields. Qed.

Lemma polled_trace address n w :
  trace (polled address n w)
  = trace w ++ replicate n (Tx (read_request address)).
Proof.
  induction n; [simpl; by rewrite app_nil_r|].
  rewrite replicate_S_end, app_assoc, <- IHn.
  unfold polled. rewrite Nat.iter_succ. by fields.
Qed.

Lemma polled_add address n m w :
  polled address (n + m) w = polled address m (polled address n w).
Proof.
  unfold polled. rewrite Nat.add_comm. apply Nat.iter_add.
Qed.

(** [get_valid_volume] returns the first reading it obtains. *)
Lemma get_valid_volume_found address retries i v w :
  (i < retries)%nat →
  (∀ j, (j < i)%nat → absent address (bus w (cursor w + j)) = true) →
  read_at address w (cursor w) i = Some v →
  get_valid_volume address retries w
  = Ret (Some v) (polled address (S i) w).
Proof.
  revert i w. induction retries as [|n IH]; intros i w Hi Habs Hv; [lia|].
  cbn [get_valid_volume]. unfold bind at 1.
  destruct i as [|i].
  - unfold read_at in Hv. rewrite Nat.add_0_r in Hv.
    by rewrite (read_some _ _ _ Hv).
  - rewrite read_absent
      by (specialize (Habs 0%nat); rewrite Nat.add_0_r in Habs; apply Habs; lia).
    unfold bind, sleep, ret. rewrite (polled_S _ (S i)).
    apply IH; [lia| |].
    + intros j Hj. fields. specialize (Habs (S j)).
      replace (S (cursor w) + j)%nat with (cursor w + S j)%nat by lia.
      apply Habs. lia.
    + unfold read_at in *. fields.
      by replace (S (cursor w) + i)%nat with (cursor w + S i)%nat by lia.
Qed.

(** Normalising the flash side of a world built from the run
    constructors. *)
Ltac store_norm :=
  repeat (fields;
          rewrite ?polled_store, ?polled_flash, ?polled_writes).

(** ... and reports absence once every attempt has failed. *)
Lemma get_valid_volume_exhausted address retries w :
  (∀ j, (j < retries)%nat → absent address (bus w (cursor w + j)) = true) →
  get_valid_volume address retries w = Ret None (polled address retries w).
Proof.
  revert w. induction retries as [|n IH]; intros w Habs; [done|].
  cbn [get_valid_volume]. unfold bind at 1.
  rewrite read_absent
    by (specialize (Habs 0%nat); rewrite Nat.add_0_r in Habs; apply Habs; lia).
  unfold bind, sleep, ret. rewrite polled_S.
  apply IH. intros j Hj. fields. specialize (Habs (S j)).
  replace (S (cursor w) + j)%nat with (cursor w + S j)%nat by lia.
  apply Habs. lia.
Qed.

(** Every return of [get_valid_volume] is one of the two cases above. *)
Lemma get_valid_volume_inv address retries w r w' :
  get_valid_volume address retries w = Ret r w' →
  match r with
  | Some v =>
      ∃ i, (i < retries)%nat
        ∧ (∀ j, (j < i)%nat → absent address (bus w (cursor w + j)) = true)
        ∧ read_at address w (cursor w) i = Some v
        ∧ w' = polled address (S i) w
  | None =>
      (∀ j, (j < retries)%nat → absent address (bus w (cursor w + j)) = true)
      ∧ w' = polled address retries w
  end.
Proof.
  revert w. induction retries as [|n IH]; intros w.
  - simpl. intros [= <- <-]. split; [lia|done].
  - cbn [get_valid_volume]. unfold bind at 1.
    destruct (read_cumulative_flow address w) as [o w1| |] eqn:Hread; [|done..].
    apply read_inv in Hread as (-> & Hok & ->).
    destruct (reading address (bus w (cursor w))) as [v|] eqn:Hv.
    + intros [= <- <-]. exists 0%nat.
      split; [lia|]. split; [lia|]. split; [|done].
      unfold read_at. by rewrite Nat.add_0_r.
    + unfold bind, sleep, ret. intros Hrest. apply IH in Hrest.
      assert (H0 : absent address (bus w (cursor w)) = true).
      { unfold absent. by rewrite Hok, Hv. }
      fields.
      destruct r as [v|].
      * destruct Hrest as (i & Hi & Habs & Hr & ->).
        exists (S i). split; [lia|]. split; [|split].
        -- intros [|j] Hj; [by rewrite Nat.add_0_r|].
           replace (cursor w + S j)%nat with (S (cursor w) + j)%nat by lia.
           apply Habs. lia.
        -- unfold read_at in *.
           by replace (cursor w + S i)%nat with (S (cursor w) + i)%nat by lia.
        -- by rewrite (polled_S _ (S i)).
      * destruct Hrest as (Habs & ->). split; [|by rewrite polled_S].
        intros [|j] Hj; [by rewrite Nat.add_0_r|].
        replace (cursor w + S j)%nat with (S (cursor w) + j)%nat by lia.
        apply Habs. lia.
Qed.

Lemma reading_rejects address e :
  (e = ReadFault
   ∨ ∃ bytes, e = Arrived bytes
       ∧ (bytes = []
          ∨ (length bytes < 9)%nat
          ∨ Codec.verify_crc (take 9 bytes) = false
          ∨ nth 0 bytes 0 ≠ address)) →
  absent address e = true.
Proof.
  intros [->|(bytes & -> & Hbad)]; [done|].
  unfold absent, reading, decode_flow, uart_read. simpl.
  destruct bytes as [|b bytes]; [done|].
  destruct Hbad as [?|[Hlen|[Hcrc|Haddr]]]; [done|..].
  - rewrite length_take.
    replace (9 `min` length (b :: bytes) =? 9)%nat with false
      by (symmetry; apply Nat.eqb_neq; lia).
    by rewrite andb_false_r.
  - rewrite Hcrc. by rewrite andb_false_r.
  - destruct (_ && _); [|done].
    simpl in *. by apply Z.eqb_neq in Haddr as ->.
Qed.

(** C6: [read_cumulative_flow] returns [None], and does not raise, when the
    answer times out, is short, fails the checksum or carries another
    address byte; [get_valid_volume] returns the first successful reading
    among its [retries] attempts and [None] exactly when all of them
    failed. *)
Theorem driver_absorbs_faults (address : Z) (retries : nat) (w : World) :
  (∀ bytes,
     bus w (cursor w) = ReadFault
     ∨ (bus w (cursor w) = Arrived bytes
        ∧ (bytes = []
           ∨ (length bytes < 9)%nat
           ∨ Codec.verify_crc (take 9 bytes) = false
           ∨ nth 0 bytes 0 ≠ address)) →
     read_cumulative_flow address w
     = Ret None (exchanged (read_request address) w))
  ∧ (∀ i v,
       (i < retries)%nat →
       (∀ j, (j < i)%nat → absent address (bus w (cursor w + j)) = true) →
       read_at address w (cursor w) i = Some v →
       get_valid_volume address retries w
       = Ret (Some v) (polled address (S i) w))
  ∧ ((∀ j, (j < retries)%nat →
           absent address (bus w (cursor w + j)) = true) →
     get_valid_volume address retries w
     = Ret None (polled address retries w))
  ∧ (∀ w',
       get_valid_volume address retries w = Ret None w' →
       ∀ j, (j < retries)%nat →
            absent address (bus w (cursor w + j)) = true).
Proof.
  split; [|split; [|split]].
  - intros bytes H. apply read_absent, reading_rejects.
    destruct H as [?|[? ?]]; [by left|right; eauto].
  - intros i v. apply get_valid_volume_found.
  - apply get_valid_volume_exhausted.
  - intros w' H. by apply get_valid_volume_inv in H as [? _].
Qed.

Lemma driver_absorbs_faults_witness :
  let w := bench [Arrived [6; 3; 4]; meter_reply 6 150] ∅ in
  read_cumulative_flow 6 w = Ret None (exchanged (read_request 6) w)
  ∧ get_valid_volume 6 5 w = Ret (Some 150) (polled 6 2 w)
  ∧ get_valid_volume 6 5 (bench [] ∅) = Ret None (polled 6 5 (bench [] ∅))
  ∧ absent 6 (bus (bench [] ∅) 4) = true.
Proof.
  intros w. split; [|split; [|split]].
  - apply (proj1 (driver_absorbs_faults 6 5 w) [6; 3; 4]).
    right. split; [reflexivity|]. right. left. simpl. lia.
  - apply (proj1 (proj2 (driver_absorbs_faults 6 5 w)) 1%nat 150).
    + lia.
    + intros j Hj. assert (j = 0%nat) as -> by lia. vm_compute; reflexivity.
    + vm_compute; reflexivity.
  - apply (proj1 (proj2 (proj2 (driver_absorbs_faults 6 5 (bench [] ∅))))).
    intros j Hj.
    do 5 (destruct j as [|j]; [vm_compute; reflexivity|]). lia.
  - apply (proj2 (proj2 (proj2 (driver_absorbs_faults 6 5 (bench [] ∅))))
             (polled 6 5 (bench [] ∅)) ltac:(vm_compute; reflexivity) 4%nat).
    lia.
Defined.

(** ** The monitoring loop *)

Lemma monitoring_absent fuel address start target last errs w :
  absent address (bus w (cursor w)) = true →
  errs + 1 < max_errors →
  monitoring (S fuel) address start target last errs w
  = monitoring fuel address start target last (errs + 1)
      (exchanged (read_request address) w).
Proof.
  intros Habs Herr. cbn [monitoring]. unfold bind at 1.
  rewrite read_absent by done.
  replace (max_errors <=? errs + 1) with false
    by (symmetry; apply Z.leb_gt; lia).
  reflexivity.
Qed.

Lemma monitoring_below fuel address start target last errs v w :
  reading address (bus w (cursor w)) = Some v →
  v < target →
  monitoring (S fuel) address start target last errs w
  = monitoring fuel address start target v 0
      (exchanged (read_request address) w).
Proof.
  intros Hv Hlt. cbn [monitoring]. unfold bind at 1.
  rewrite (read_some _ _ _ Hv).
  replace (target <=? v) with false by (symmetry; apply Z.leb_gt; lia).
  reflexivity.
Qed.

Lemma monitoring_timeout fuel address start target last errs w :
  absent address (bus w (cursor w)) = true →
  max_errors <= errs + 1 →
  line_ok (bus w (S (cursor w))) = true →
  monitoring (S fuel) address start target last errs w
  = Ret (Failed meter_timeout (last - start))
      (exchanged (close_command address)
         (exchanged (read_request address) w)).
Proof.
  intros Habs Herr Hok. cbn [monitoring]. unfold bind at 1.
  rewrite read_absent by done.
  replace (max_errors <=? errs + 1) with true
    by (symmetry; apply Z.leb_le; lia).
  unfold bind. rewrite close_valve_run. fields. by rewrite Hok.
Qed.

Lemma monitoring_reached fuel address start target last errs v w :
  reading address (bus w (cursor w)) = Some v →
  target <= v →
  line_ok (bus w (S (cursor w))) = true →
  monitoring (S fuel) address start target last errs w
  = Ret (Completed (v - start) v)
      (saved address v
         (exchanged (close_command address)
            (exchanged (read_request address) w))).
Proof.
  intros Hv Hge Hok. cbn [monitoring]. unfold bind at 1.
  rewrite (read_some _ _ _ Hv).
  replace (target <=? v) with true by (symmetry; apply Z.leb_le; lia).
  unfold bind at 1. rewrite close_valve_run. fields. by rewrite Hok.
Qed.

Lemma readings_S address w k n :
  readings address w k (S n)
  = read_at address w k 0 :: readings address w (S k) n.
Proof.
  unfold readings. cbn [seq map]. f_equal.
  rewrite <- seq_shift, map_map. apply map_ext. intros i.
  unfold read_at. f_equal. f_equal. lia.
Qed.

Lemma readings_length address w k n : length (readings address w k n) = n.
Proof. unfold readings. by rewrite length_map, length_seq. Qed.

Lemma readings_lookup address w k n i :
  (i < n)%nat → readings address w k n !! i = Some (read_at address w k i).
Proof.
  intros Hi. unfold readings. rewrite list_lookup_fmap.
  rewrite lookup_seq_lt by done. reflexivity.
Qed.

(** As long as no reading reaches the target and the error counter stays
    below the threshold, the loop keeps polling; its variables follow
    [last_known] and [count_error]. *)
Lemma monitoring_skip address start target :
  ∀ n w last errs fuel,
    (∀ i, (i < n)%nat → line_ok (bus w (cursor w + i)) = true) →
    (∀ i v, (i < n)%nat →
            read_at address w (cursor w) i = Some v → v < target) →
    (∀ m, (1 <= m <= n)%nat →
          fold_left count_error
            (take m (readings address w (cursor w) n)) errs < max_errors) →
    monitoring (n + fuel) address start target last errs w
    = monitoring fuel address start target
        (fold_left (λ l r, default l r)
           (readings address w (cursor w) n) last)
        (fold_left count_error (readings address w (cursor w) n) errs)
        (polled address n w).
Proof.
  induction n as [|n IH]; intros w last errs fuel Hok Hlow Hcnt; [done|].
  rewrite readings_S. cbn [fold_left]. rewrite polled_S.
  pose proof (Hok 0%nat ltac:(lia)) as Hok0.
  rewrite Nat.add_0_r in Hok0.
  pose proof (Hcnt 1%nat ltac:(lia)) as Hc1.
  rewrite readings_S in Hc1. cbn [take fold_left] in Hc1.
  assert (Hshift : ∀ i, read_at address w (S (cursor w)) i
                       = read_at address w (cursor w) (S i)).
  { intros i. unfold read_at. f_equal. f_equal. lia. }
  assert (Hok' : ∀ i, (i < n)%nat →
     line_ok (bus (exchanged (read_request address) w)
                (cursor (exchanged (read_request address) w) + i)) = true).
  { intros i Hi. fields.
    replace (S (cursor w) + i)%nat with (cursor w + S i)%nat by lia.
    apply Hok. lia. }
  assert (Hlow' : ∀ i v, (i < n)%nat →
     read_at address (exchanged (read_request address) w)
       (cursor (exchanged (read_request address) w)) i = Some v →
     v < target).
  { intros i v Hi Hv. fields. apply (Hlow (S i)); [lia|].
    by rewrite <- Hshift. }
  assert (Hrs : readings address (exchanged (read_request address) w)
                  (cursor (exchanged (read_request address) w)) n
                = readings address w (S (cursor w)) n) by done.
  cbn [Nat.add].
  destruct (read_at address w (cursor w) 0) as [v|] eqn:Hr;
    unfold read_at in Hr; rewrite Nat.add_0_r in Hr.
  - rewrite (monitoring_below _ _ _ _ _ _ v); [|done|].
    2:{ apply (Hlow 0%nat); [lia|]. unfold read_at.
        by rewrite Nat.add_0_r. }
    rewrite IH; [by rewrite Hrs|done|done|].
    intros m Hm. rewrite Hrs. specialize (Hcnt (S m) ltac:(lia)).
    rewrite readings_S in Hcnt. cbn [take fold_left] in Hcnt.
    unfold read_at in Hcnt at 1. rewrite Nat.add_0_r, Hr in Hcnt.
    exact Hcnt.
  - cbn [count_error] in Hc1.
    rewrite monitoring_absent; [| |done].
    2:{ unfold absent. by rewrite Hok0, Hr. }
    rewrite IH; [by rewrite Hrs|done|done|].
    intros m Hm. rewrite Hrs. specialize (Hcnt (S m) ltac:(lia)).
    rewrite readings_S in Hcnt. cbn [take fold_left] in Hcnt.
    unfold read_at in Hcnt at 1. rewrite Nat.add_0_r, Hr in Hcnt.
    exact Hcnt.
Qed.

(** ** The dispense controller *)

Lemma get_valid_volume_world address retries w r w' :
  get_valid_volume address retries w = Ret r w' →
  ∃ n, (n <= retries)%nat ∧ w' = polled address n w.
Proof.
  intros H. apply get_valid_volume_inv in H. destruct r.
  - destruct H as (i & Hi & _ & _ & ->). exists (S i). split; [lia|done].
  - destruct H as [_ ->]. by exists retries.
Qed.

(** After a successful start reading the target is saved, the valve is
    opened and the loop is entered. *)
Lemma dispense_batch_started fuel address liters w start w1 :
  get_valid_volume address 5 w = Ret (Some start) w1 →
  line_ok (bus w (cursor w1)) = true →
  dispense_batch fuel address liters w
  = monitoring fuel address start (start + liters) start 0
      (exchanged (open_command address)
         (saved address (start + liters) w1)).
Proof.
  intros Hstart Hok. unfold dispense_batch. unfold bind at 1.
  rewrite Hstart. unfold bind at 1. unfold save_target_reading, modify.
  unfold bind at 1. rewrite open_valve_run. fields.
  apply get_valid_volume_world in Hstart as (n & _ & ->).
  rewrite polled_bus, Hok. reflexivity.
Qed.

Lemma dispense_batch_no_start fuel address liters w w1 :
  get_valid_volume address 5 w = Ret None w1 →
  dispense_batch fuel address liters w = Ret (Failed initial_read_error 0) w1.
Proof.
  intros Hstart. unfold dispense_batch. unfold bind at 1.
  by rewrite Hstart.
Qed.

(** The world in which the monitoring loop is entered. *)
Lemma loop_entry_fields address target w1 :
  let w2 := exchanged (open_command address) (saved address target w1) in
  bus w2 = bus w1 ∧ cursor w2 = S (cursor w1).
Proof. done. Qed.

Lemma count_error_successes rs errs :
  0 <= errs < max_errors →
  Forall is_Some rs →
  fold_left count_error rs errs < max_errors.
Proof.
  intros Herrs Hall. revert errs Herrs.
  induction Hall as [|r rs [v ->] _ IH]; intros errs Herrs; cbn [fold_left].
  - lia.
  - apply IH. unfold max_errors. simpl. lia.
Qed.

Lemma count_error_range rs errs :
  0 <= errs →
  0 <= fold_left count_error rs errs <= errs + Z.of_nat (length rs).
Proof.
  revert errs. induction rs as [|r rs IH]; intros errs Herrs; cbn [fold_left].
  - simpl. lia.
  - destruct r as [v|]; cbn [count_error].
    + specialize (IH 0 ltac:(lia)). simpl length. lia.
    + specialize (IH (errs + 1) ltac:(lia)). simpl length. lia.
Qed.

(** C1: when the start reading succeeds, every monitoring read succeeds
    and the reading of poll [n] is the first to reach [start + liters],
    the call returns (for every loop budget above [n]) [Completed] with
    [dispensed = final - start] and [final >= start + liters]. *)
Theorem dispense_completion_law
    (address liters start final : Z) (n : nat) (w w1 : World) :
  get_valid_volume address 5 w = Ret (Some start) w1 →
  line_ok (bus w (cursor w1)) = true →
  (∀ i, (i < n)%nat →
        ∃ v, read_at address w (S (cursor w1)) i = Some v
             ∧ v < start + liters) →
  read_at address w (S (cursor w1)) n = Some final →
  start + liters <= final →
  line_ok (bus w (S (cursor w1) + S n)) = true →
  ∃ w',
    (∀ fuel, (n < fuel)%nat →
       dispense_batch fuel address liters w
       = Ret (Completed (final - start) final) w')
    ∧ start + liters <= final
    ∧ store w'
      = written (flash w (S (writes w))) address final
          (written (flash w (writes w)) address (start + liters) (store w)).
Proof.
  intros Hstart Hopen Hlow Hfinal Hge Hclose.
  set (w2 := exchanged (open_command address)
               (saved address (start + liters) w1)).
  assert (Hbus : bus w2 = bus w).
  { apply get_valid_volume_world in Hstart as (k & _ & ->).
    subst w2. fields. apply polled_bus. }
  assert (Hcur : cursor w2 = S (cursor w1)) by done.
  exists (saved address final
            (exchanged (close_command address)
               (exchanged (read_request address) (polled address n w2)))).
  split; [|split; [done|]].
  - intros fuel Hfuel.
    rewrite (dispense_batch_started _ _ _ _ _ _ Hstart Hopen).
    fold w2. destruct fuel as [|fuel]; [lia|].
    replace (S fuel) with (n + S (fuel - n))%nat by lia.
    rewrite monitoring_skip.
    + apply monitoring_reached.
      * rewrite polled_bus, polled_cursor, Hbus, Hcur. exact Hfinal.
      * done.
      * rewrite polled_bus, polled_cursor, Hbus, Hcur.
        by replace (S (S (cursor w1) + n)) with (S (cursor w1) + S n)%nat
          by lia.
    + intros i Hi. rewrite Hbus, Hcur.
      destruct (Hlow i Hi) as (v & Hv & _).
      by eapply reading_line_ok.
    + intros i v Hi Hv. rewrite Hcur in Hv. unfold read_at in Hv.
      rewrite Hbus in Hv. destruct (Hlow i Hi) as (v' & Hv' & Hlt).
      unfold read_at in Hv'. congruence.
    + intros m Hm. apply count_error_successes; [unfold max_errors; lia|].
      apply Forall_take. apply Forall_forall. intros r Hr.
      apply list_elem_of_lookup in Hr as [i Hi].
      pose proof (lookup_lt_Some _ _ _ Hi) as Hlen.
      rewrite readings_length in Hlen.
      rewrite readings_lookup in Hi by done. injection Hi as <-.
      rewrite ?Hcur. unfold read_at. rewrite Hbus.
      destruct (Hlow i Hlen) as (v & Hv & _). unfold read_at in Hv.
      rewrite Hv. by eexists.
  - apply get_valid_volume_world in Hstart as (k & _ & ->). subst w2.
    store_norm. reflexivity.
Qed.

Lemma dispense_completion_law_witness :
  let w := bench [meter_reply 6 150; write_ack 6; meter_reply 6 160;
                  meter_reply 6 175; write_ack 6] ∅ in
  ∃ w',
    (∀ fuel, (1 < fuel)%nat →
       dispense_batch fuel 6 20 w = Ret (Completed (175 - 150) 175) w')
    ∧ 150 + 20 <= 175
    ∧ store w'
      = written (flash w (S (writes w))) 6 175
          (written (flash w (writes w)) 6 (150 + 20) (store w)).
Proof.
  intros w.
  apply (dispense_completion_law 6 20 150 175 1 w (polled 6 1 w)).
  - reflexivity.
  - reflexivity.
  - intros i Hi. assert (i = 0%nat) as -> by lia.
    exists 160. split; [reflexivity|lia].
  - reflexivity.
  - lia.
  - reflexivity.
Defined.

(** ** Traces of runs *)

Lemma since_app w w' evs : trace w' = trace w ++ evs → since w w' = evs.
Proof. intros H. unfold since. rewrite H. apply drop_app_length. Qed.

Lemma actions_app tr1 tr2 : actions (tr1 ++ tr2) = actions tr1 ++ actions tr2.
Proof. apply omap_app. Qed.

Lemma actions_reads address n :
  actions (replicate n (Tx (read_request address))) = [].
Proof. induction n; [done|]. simpl. exact IHn. Qed.

Lemma actions_open address :
  actions [Tx (open_command address)] = [OpenValve (Codec.to_byte address)].
Proof. reflexivity. Qed.

Lemma actions_close address :
  actions [Tx (close_command address)] = [CloseValve (Codec.to_byte address)].
Proof. reflexivity. Qed.

Lemma actions_saved address v :
  actions [Saved address v] = [Persist address v].
Proof. reflexivity. Qed.

(** Normalising the trace of a world built from the run constructors. *)
Ltac trace_norm :=
  repeat (fields; rewrite ?polled_trace);
  rewrite <- ?app_assoc.

Ltac actions_norm :=
  rewrite ?actions_app, ?actions_reads, ?actions_open, ?actions_close,
    ?actions_saved, ?app_nil_l, ?app_nil_r; cbn [app].

(** Every return of the monitoring loop: some polls, then the close
    command, then (on success only) the terminal save. *)
Lemma monitoring_inv address start target :
  ∀ fuel last errs w r w',
    monitoring fuel address start target last errs w = Ret r w' →
    ∃ n,
      match r with
      | Completed d final =>
          w' = saved address final
                 (exchanged (close_command address) (polled address (S n) w))
          ∧ d = final - start
          ∧ target <= final
          ∧ read_at address w (cursor w) n = Some final
      | Failed reason d =>
          w' = exchanged (close_command address) (polled address (S n) w)
          ∧ reason = meter_timeout
          ∧ (last < target → start + d < target)
          ∧ absent address (bus w (cursor w + n)) = true
      end.
Proof.
  induction fuel as [|fuel IH]; intros last errs w r w'; [done|].
  cbn [monitoring]. unfold bind at 1.
  destruct (read_cumulative_flow address w) as [o w1| |] eqn:Hread; [|done..].
  apply read_inv in Hread as (-> & Hok & ->).
  destruct (reading address (bus w (cursor w))) as [v|] eqn:Hv.
  - destruct (target <=? v) eqn:Hcmp.
    + unfold bind at 1. rewrite close_valve_run. fields.
      destruct (line_ok (bus w (S (cursor w)))); [|done].
      unfold bind, save_target_reading, modify, ret. intros [= <- <-].
      exists 0%nat. split; [done|]. split; [done|].
      split; [by apply Z.leb_le|].
      unfold read_at. by rewrite Nat.add_0_r.
    + unfold bind, sleep, ret. intros Hrest.
      apply IH in Hrest as [n Hn]. exists (S n).
      apply Z.leb_gt in Hcmp.
      destruct r as [d final|reason d].
      * destruct Hn as (-> & -> & Hge & Hfin). rewrite (polled_S _ (S n)).
        split; [done|]. split; [done|]. split; [done|].
        unfold read_at in *. fields.
        by replace (cursor w + S n)%nat with (S (cursor w) + n)%nat by lia.
      * destruct Hn as (-> & -> & Hd & Habs). rewrite (polled_S _ (S n)).
        split; [done|]. split; [done|]. split; [auto|].
        fields.
        by replace (cursor w + S n)%nat with (S (cursor w) + n)%nat by lia.
  - assert (Habs0 : absent address (bus w (cursor w)) = true).
    { unfold absent. by rewrite Hok, Hv. }
    destruct (max_errors <=? errs + 1) eqn:Hcmp.
    + unfold bind at 1. rewrite close_valve_run. fields.
      destruct (line_ok (bus w (S (cursor w)))); [|done].
      unfold ret. intros [= <- <-].
      exists 0%nat. split; [done|]. split; [done|].
      split; [lia|]. by rewrite Nat.add_0_r.
    + unfold bind, sleep, ret. intros Hrest.
      apply IH in Hrest as [n Hn]. exists (S n).
      destruct r as [d final|reason d].
      * destruct Hn as (-> & -> & Hge & Hfin). rewrite (polled_S _ (S n)).
        split; [done|]. split; [done|]. split; [done|].
        unfold read_at in *. fields.
        by replace (cursor w + S n)%nat with (S (cursor w) + n)%nat by lia.
      * destruct Hn as (-> & -> & Hd & Habs). rewrite (polled_S _ (S n)).
        split; [done|]. split; [done|]. split; [auto|].
        fields.
        by replace (cursor w + S n)%nat with (S (cursor w) + n)%nat by lia.
Qed.

(** Every return of [dispense_batch]. *)
Lemma dispense_batch_inv fuel address liters w r w' :
  dispense_batch fuel address liters w = Ret r w' →
  (r = Failed initial_read_error 0
   ∧ get_valid_volume address 5 w = Ret None w'
   ∧ w' = polled address 5 w)
  ∨ ∃ start k n,
      get_valid_volume address 5 w = Ret (Some start) (polled address k w)
      ∧ line_ok (bus w (cursor w + k)) = true
      ∧ match r with
        | Completed d final =>
            w' = saved address final
                   (exchanged (close_command address)
                      (polled address (S n)
                         (exchanged (open_command address)
                            (saved address (start + liters)
                               (polled address k w)))))
            ∧ d = final - start
            ∧ start + liters <= final
        | Failed reason d =>
            w' = exchanged (close_command address)
                   (polled address (S n)
                      (exchanged (open_command address)
                         (saved address (start + liters)
                            (polled address k w))))
            ∧ reason = meter_timeout
            ∧ (0 < liters → start + d < start + liters)
        end.
Proof.
  intros Hrun.
  destruct (get_valid_volume address 5 w) as [[start|] w1| |] eqn:Hstart.
  - right.
    pose proof Hstart as Hw1.
    apply get_valid_volume_world in Hw1 as (k & _ & ->).
    destruct (line_ok (bus w (cursor w + k))) eqn:Hok.
    + rewrite (dispense_batch_started _ _ _ _ _ _ Hstart) in Hrun
        by (by rewrite polled_cursor).
      apply monitoring_inv in Hrun as [n Hn].
      exists start, k, n. split; [done|]. split; [done|].
      destruct r as [d final|reason d].
      * destruct Hn as (-> & -> & Hge & _). done.
      * destruct Hn as (-> & -> & Hd & _). split; [done|]. split; [done|].
        intros Hl. apply Hd. lia.
    + exfalso. revert Hrun. unfold dispense_batch. unfold bind at 1.
      rewrite Hstart. unfold bind at 1. unfold save_target_reading, modify.
      unfold bind at 1. rewrite open_valve_run. fields.
      by rewrite polled_bus, polled_cursor, Hok.
  - left. rewrite (dispense_batch_no_start _ _ _ _ _ Hstart) in Hrun.
    injection Hrun as <- <-. split; [done|]. split; [done|].
    by apply get_valid_volume_inv in Hstart as [_ ->].
  - revert Hrun. unfold dispense_batch. unfold bind at 1. by rewrite Hstart.
  - revert Hrun. unfold dispense_batch. unfold bind at 1. by rewrite Hstart.
Qed.

(** Runs that do not return: an exception leaves in the middle of an
    exchange, and a run cut short by the loop budget is still polling. *)
Lemma get_valid_volume_raise address retries w w' :
  get_valid_volume address retries w = Raise w' →
  ∃ n, w' = advance (polled address n w).
Proof.
  revert w. induction retries as [|n IH]; intros w; [done|].
  cbn [get_valid_volume]. unfold bind at 1.
  rewrite read_cumulative_flow_run.
  destruct (bus w (cursor w)) eqn:Hbus.
  - intros [= <-]. by exists 0%nat.
  - destruct (reading address ReadFault); [done|].
    unfold bind, sleep, ret. intros H. apply IH in H as [m ->].
    exists (S m). by rewrite polled_S.
  - destruct (reading address (Arrived bytes)); [done|].
    unfold bind, sleep, ret. intros H. apply IH in H as [m ->].
    exists (S m). by rewrite polled_S.
Qed.

Lemma get_valid_volume_ends address retries w w' :
  get_valid_volume address retries w ≠ Diverge w'.
Proof.
  revert w. induction retries as [|n IH]; intros w; [done|].
  cbn [get_valid_volume]. unfold bind at 1.
  rewrite read_cumulative_flow_run.
  destruct (bus w (cursor w)); [done|..];
    (destruct (reading address _); [done|]);
    unfold bind, sleep, ret; apply IH.
Qed.







Lemma readings_snoc address w k n :
  readings address w k (S n)
  = readings address w k n ++ [read_at address w k n].
Proof. unfold readings. by rewrite seq_S, map_app. Qed.

Lemma last_known_all_absent start rs :
  Forall (λ r, r = None) rs → last_known start rs = start.
Proof.
  unfold last_known. induction 1 as [|r rs -> _ IH]; [done|]. exact IH.
Qed.

(** C4: each absent reading adds one to the consecutive-error counter and
    a successful reading resets it; when the counter reaches 5 (at poll
    [n], for the first time) the close command is sent exactly once and
    the call returns [Failed meter_timeout] with the last successful
    reading minus the start reading, which is 0 when no monitoring read
    succeeded. *)
Theorem error_threshold_termination
    (address liters start : Z) (n : nat) (w w1 : World) :
  get_valid_volume address 5 w = Ret (Some start) w1 →
  line_ok (bus w (cursor w1)) = true →
  (∀ i, (i < n)%nat → line_ok (bus w (S (cursor w1) + i)) = true) →
  (∀ i v, (i < n)%nat →
          read_at address w (S (cursor w1)) i = Some v → v < start + liters) →
  (∀ m, (m < n)%nat →
        error_counter (take m (readings address w (S (cursor w1)) n)) < 5) →
  error_counter (readings address w (S (cursor w1)) n) = 5 →
  line_ok (bus w (S (cursor w1) + n)) = true →
  ∃ w',
    (∀ fuel, (n <= fuel)%nat →
       dispense_batch fuel address liters w
       = Ret (Failed meter_timeout
                (last_known start (readings address w (S (cursor w1)) n)
                 - start)) w')
    ∧ actions (since w w')
      = [Persist address (start + liters);
         OpenValve (Codec.to_byte address);
         CloseValve (Codec.to_byte address)]
    ∧ length (filter (λ a, is_close a = true) (actions (since w w'))) = 1%nat
    ∧ (Forall (λ r, r = None) (readings address w (S (cursor w1)) n) →
       last_known start (readings address w (S (cursor w1)) n) - start = 0).
Proof.
  intros Hstart Hopen Hok Hlow Hpre Hfive Hclose.
  destruct n as [|n]; [done|].
  set (k := S (cursor w1)) in *.
  set (w2 := exchanged (open_command address)
               (saved address (start + liters) w1)).
  pose proof Hstart as Hw1.
  apply get_valid_volume_world in Hw1 as (j & _ & Hw1).
  assert (Hbus : bus w2 = bus w) by (subst w2 w1; fields; apply polled_bus).
  assert (Hcur : cursor w2 = k) by done.
  rewrite readings_snoc in Hfive. unfold error_counter in Hfive.
  rewrite fold_left_app in Hfive. cbn [fold_left] in Hfive.
  destruct (read_at address w k n) as [v|] eqn:Hlast; [done|].
  cbn [count_error] in Hfive.
  assert (Hrs : readings address w2 (cursor w2) n = readings address w k n).
  { unfold readings, read_at. by rewrite Hbus, Hcur. }
  assert (Hskip : ∀ fuel,
    monitoring (n + fuel) address start (start + liters) start 0 w2
    = monitoring fuel address start (start + liters)
        (last_known start (readings address w k n))
        (error_counter (readings address w k n))
        (polled address n w2)).
  { intros fuel. rewrite monitoring_skip; [by rewrite Hrs| | |].
    - intros i Hi. rewrite Hbus, Hcur. apply Hok. lia.
    - intros i v Hi Hv. unfold read_at in Hv. rewrite Hbus, Hcur in Hv.
      apply (Hlow i v); [lia|done].
    - intros m Hm. rewrite Hrs.
      destruct (decide (m = n)) as [->|Hne].
      + rewrite take_ge by (rewrite readings_length; lia).
        unfold max_errors. lia.
      + specialize (Hpre m ltac:(lia)). rewrite readings_snoc in Hpre.
        rewrite take_app_le in Hpre by (rewrite readings_length; lia).
        exact Hpre. }
  exists (exchanged (close_command address)
            (exchanged (read_request address) (polled address n w2))).
  split; [|split; [|split]].
  - intros fuel Hfuel.
    rewrite (dispense_batch_started _ _ _ _ _ _ Hstart Hopen). fold w2.
    replace fuel with (n + S (fuel - S n))%nat by lia.
    rewrite Hskip. rewrite monitoring_timeout.
    + do 2 f_equal. rewrite readings_snoc. unfold last_known.
      rewrite fold_left_app. cbn [fold_left]. by rewrite Hlast.
    + unfold absent. rewrite polled_bus, polled_cursor, Hbus, Hcur.
      rewrite (Hok n) by lia. unfold read_at in Hlast. by rewrite Hlast.
    + unfold max_errors, error_counter. lia.
    + rewrite polled_bus, polled_cursor, Hbus, Hcur.
      by replace (S (k + n)) with (k + S n)%nat by lia.
  - erewrite since_app; [|subst w2 w1; trace_norm; reflexivity].
    by actions_norm.
  - erewrite since_app; [|subst w2 w1; trace_norm; reflexivity].
    by actions_norm.
  - intros Hnone. rewrite last_known_all_absent by done. lia.
Qed.

Lemma error_threshold_termination_witness :
  let w := bench [meter_reply 6 150; write_ack 6; meter_reply 6 160] ∅ in
  ∃ w',
    (∀ fuel, (6 <= fuel)%nat →
       dispense_batch fuel 6 20 w = Ret (Failed meter_timeout 10) w')
    ∧ actions (since w w')
      = [Persist 6 (150 + 20); OpenValve (Codec.to_byte 6);
         CloseValve (Codec.to_byte 6)]
    ∧ length (filter (λ a, is_close a = true) (actions (since w w'))) = 1%nat
    ∧ (Forall (λ r, r = None) (readings 6 w 2 6) →
       last_known 150 (readings 6 w 2 6) - 150 = 0).
Proof.
  intros w.
  assert (Hrs : readings 6 w 2 6 = [Some 160; None; None; None; None; None])
    by (vm_compute; reflexivity).
  assert (Hw1 : get_valid_volume 6 5 w = Ret (Some 150) (polled 6 1 w))
    by (vm_compute; reflexivity).
  replace 10 with (last_known 150 (readings 6 w 2 6) - 150)
    by (rewrite Hrs; reflexivity).
  apply (error_threshold_termination 6 20 150 6 w (polled 6 1 w) Hw1).
  - vm_compute; reflexivity.
  - intros i Hi.
    do 6 (destruct i as [|i]; [vm_compute; reflexivity|]). lia.
  - intros i v Hi Hv.
    assert (Hi' : readings 6 w 2 6 !! i = Some (Some v)).
    { rewrite readings_lookup by exact Hi. change (cursor (polled 6 1 w)) with 1%nat in Hv. by rewrite Hv. }
    rewrite Hrs in Hi'.
    destruct i as [|i]; [injection Hi' as <-; lia|].
    do 5 (destruct i as [|i]; [discriminate Hi'|]). lia.
  - intros m Hm. change (cursor (polled 6 1 w)) with 1%nat. rewrite Hrs.
    do 6 (destruct m as [|m]; [vm_compute; reflexivity|]). lia.
  - change (cursor (polled 6 1 w)) with 1%nat. rewrite Hrs. reflexivity.
  - vm_compute; reflexivity.
Defined.

(** C10: with a request [liters <= 0] and a successful start reading the
    target [start + liters] is still saved and the valve opened; the
    first successful monitoring reading [current] of a meter that has not
    gone backwards ([start <= current]) already meets the target, so the
    valve is closed and the call returns [Completed (current - start)];
    for [liters < 0] the saved target lies below the start reading. *)
Theorem nonpositive_request_actuates
    (address liters start current : Z) (j : nat) (w w1 : World) :
  liters <= 0 →
  get_valid_volume address 5 w = Ret (Some start) w1 →
  line_ok (bus w (cursor w1)) = true →
  (j < 5)%nat →
  (∀ i, (i < j)%nat → absent address (bus w (S (cursor w1) + i)) = true) →
  read_at address w (S (cursor w1)) j = Some current →
  start <= current →
  line_ok (bus w (S (cursor w1) + S j)) = true →
  ∃ w',
    (∀ fuel, (j < fuel)%nat →
       dispense_batch fuel address liters w
       = Ret (Completed (current - start) current) w')
    ∧ actions (since w w')
      = [Persist address (start + liters);
         OpenValve (Codec.to_byte address);
         CloseValve (Codec.to_byte address);
         Persist address current]
    ∧ start + liters <= current
    ∧ (liters < 0 → start + liters < start).
Proof.
  intros Hneg Hstart Hopen Hj Habs Hcur Hmono Hclose.
  set (k := S (cursor w1)) in *.
  set (w2 := exchanged (open_command address)
               (saved address (start + liters) w1)).
  pose proof Hstart as Hw1.
  apply get_valid_volume_world in Hw1 as (i0 & _ & Hw1).
  assert (Hbus : bus w2 = bus w) by (subst w2 w1; fields; apply polled_bus).
  assert (Hk : cursor w2 = k) by done.
  assert (Habs' : ∀ i, (i < j)%nat →
            line_ok (bus w (k + i)) = true
            ∧ read_at address w k i = None).
  { intros i Hi. specialize (Habs i Hi). unfold absent in Habs.
    apply andb_true_iff in Habs as [Hl Hr]. split; [done|].
    unfold read_at. by destruct (reading address (bus w (k + i))). }
  exists (saved address current
            (exchanged (close_command address)
               (exchanged (read_request address) (polled address j w2)))).
  split; [|split; [|split]].
  - intros fuel Hfuel.
    rewrite (dispense_batch_started _ _ _ _ _ _ Hstart Hopen). fold w2.
    replace fuel with (j + S (fuel - S j))%nat by lia.
    rewrite monitoring_skip.
    + apply monitoring_reached.
      * rewrite polled_bus, polled_cursor, Hbus, Hk. exact Hcur.
      * lia.
      * rewrite polled_bus, polled_cursor, Hbus, Hk.
        by replace (S (k + j)) with (k + S j)%nat by lia.
    + intros i Hi. rewrite Hbus, Hk. by apply Habs'.
    + intros i v Hi Hv. unfold read_at in Hv. rewrite Hbus, Hk in Hv.
      destruct (Habs' i Hi) as [_ Hnone]. unfold read_at in Hnone.
      congruence.
    + intros m Hm.
      pose proof (count_error_range
                    (take m (readings address w2 (cursor w2) j)) 0
                    ltac:(lia)) as Hr.
      rewrite length_take, readings_length in Hr.
      unfold max_errors. lia.
  - erewrite since_app; [|subst w2 w1; trace_norm; reflexivity].
    by actions_norm.
  - lia.
  - lia.
Qed.

Lemma nonpositive_request_actuates_witness :
  let w := bench [meter_reply 6 150; write_ack 6; Arrived [];
                  meter_reply 6 150; write_ack 6] ∅ in
  ∃ w',
    (∀ fuel, (1 < fuel)%nat →
       dispense_batch fuel 6 (-5) w = Ret (Completed (150 - 150) 150) w')
    ∧ actions (since w w')
      = [Persist 6 (150 + -5); OpenValve (Codec.to_byte 6);
         CloseValve (Codec.to_byte 6); Persist 6 150]
    ∧ 150 + -5 <= 150
    ∧ (-5 < 0 → 150 + -5 < 150).
Proof.
  intros w.
  apply (nonpositive_request_actuates 6 (-5) 150 150 1 w (polled 6 1 w)).
  - lia.
  - reflexivity.
  - reflexivity.
  - lia.
  - intros i Hi. assert (i = 0%nat) as -> by lia. reflexivity.
  - reflexivity.
  - lia.
  - reflexivity.
Defined.

(** ** Recovery at boot *)

Lemma recover_address_unfold fuel addr w :
  recover_address fuel addr w =
  match get_valid_volume addr 5 w with
  | Ret current_vol w1 =>
      match store w !! addr, current_vol with
      | None, Some c => Ret tt (saved addr c w1)
      | None, None => Ret tt w1
      | Some t, None => Ret tt w1
      | Some t, Some c =>
          if c <? t
          then (_ <- dispense_batch fuel addr (t - c) ;; ret tt)
                 (emit (Published (resuming_batch (t - c))) w1)
          else Ret tt w1
      end
  | Raise w1 => Raise w1
  | Diverge w1 => Diverge w1
  end.
Proof.
  unfold recover_address. unfold bind at 1. unfold load_target_reading.
  destruct (store w !! addr) as [t|]; unfold bind at 1;
    destruct (get_valid_volume addr 5 w) as [[c|] w1| |]; try reflexivity.
  destruct (c <? t); reflexivity.
Qed.

Lemma check_for_interrupted_jobs_cons fuel addr rest w :
  check_for_interrupted_jobs fuel (addr :: rest) w =
  match recover_address fuel addr w with
  | Ret _ w' => check_for_interrupted_jobs fuel rest w'
  | Raise w' => check_for_interrupted_jobs fuel rest w'
  | Diverge w' => Diverge w'
  end.
Proof.
  cbn [check_for_interrupted_jobs]. unfold bind, try_except.
  by destruct (recover_address fuel addr w).
Qed.

Lemma check_for_interrupted_jobs_no_raise fuel addresses :
  ∀ w w', check_for_interrupted_jobs fuel addresses w ≠ Raise w'.
Proof.
  induction addresses as [|addr rest IH]; intros w w'; [done|].
  rewrite check_for_interrupted_jobs_cons.
  destruct (recover_address fuel addr w); [apply IH|apply IH|done].
Qed.

(** The body of the loop, with its handler, follows the rule. *)
Lemma recover_address_recovers fuel addr w w' :
  try_except (recover_address fuel addr) w = Ret tt w'
  ↔ recovers fuel addr w w'.
Proof.
  unfold try_except. rewrite recover_address_unfold. split.
  - destruct (get_valid_volume addr 5 w) as [[c|] w1|w1|w1] eqn:Hread.
    + destruct (store w !! addr) as [t|] eqn:Hload.
      * destruct (c <? t) eqn:Hcmp.
        -- apply Z.ltb_lt in Hcmp. unfold bind, ret.
           destruct (dispense_batch fuel addr (t - c) _)
             as [r w2|w2|w2] eqn:Hrun; [| |done];
             intros [= <-]; eapply recovers_resume; eauto;
             by rewrite Hrun.
        -- apply Z.ltb_ge in Hcmp. intros [= <-].
           by eapply recovers_clean.
      * intros [= <-]. by apply recovers_init.
    + destruct (store w !! addr) as [t|] eqn:Hload; intros [= <-].
      * by eapply recovers_unreadable.
      * by apply recovers_skip.
    + intros [= <-]. by apply recovers_caught.
    + done.
  - intros H.
    destruct H as [c w1 Hload Hread|w1 Hload Hread|t c w1 w2 Hload Hread Hlt Hrun
                  |t c w1 Hload Hread Hge|t w1 Hload Hread|w1 Hread];
      rewrite Hread, ?Hload; try done.
    + replace (c <? t) with true by (symmetry; apply Z.ltb_lt; lia).
      unfold bind, ret.
      destruct (dispense_batch fuel addr (t - c) _) as [r w3|w3|w3];
        [| |done]; by injection Hrun as ->.
    + by replace (c <? t) with false by (symmetry; apply Z.ltb_ge; lia).
Qed.

Lemma check_for_interrupted_jobs_recovery fuel addresses :
  ∀ w w',
    check_for_interrupted_jobs fuel addresses w = Ret tt w'
    ↔ recovery fuel addresses w w'.
Proof.
  induction addresses as [|addr rest IH]; intros w w'.
  - cbn [check_for_interrupted_jobs recovery]. unfold ret.
    split; [by intros [= <-]|by intros ->].
  - cbn [check_for_interrupted_jobs recovery]. unfold bind at 1. split.
    + destruct (try_except (recover_address fuel addr) w)
        as [[] w1|w1|w1] eqn:Hstep; [|done..].
      intros Hrest. exists w1. split.
      * by apply recover_address_recovers.
      * by apply IH.
    + intros (w1 & Hstep & Hrest).
      apply recover_address_recovers in Hstep. rewrite Hstep.
      by apply IH.
Qed.

(** C3: the recovery loop never raises, and it returns exactly when
    every configured address, in the order of the list, has been handled
    by the rule (which it fails to do only when a resumed dispense
    outlasts the loop budget).  Under the rule an address whose target
    [t] is not above the live reading [c] sees no save and no valve
    command, and an address without a target sees at most one save, of a
    reading of its meter, and no valve command. *)
Theorem recovery_procedure
    (fuel : nat) (addresses : list Z) (addr : Z) (w w' : World) :
  (∀ w', check_for_interrupted_jobs fuel addresses w ≠ Raise w')
  ∧ (check_for_interrupted_jobs fuel addresses w = Ret tt w'
     ↔ recovery fuel addresses w w')
  ∧ (recovers fuel addr w w' →
     (∀ t c w1, store w !! addr = Some t →
                get_valid_volume addr 5 w = Ret (Some c) w1 →
                t <= c →
                actions (since w w') = [] ∧ store w' = store w)
     ∧ (store w !! addr = None →
        (actions (since w w') = [] ∧ store w' = store w)
        ∨ ∃ c w1,
            get_valid_volume addr 5 w = Ret (Some c) w1
            ∧ actions (since w w') = [Persist addr c]
            ∧ store w' = written (flash w (writes w)) addr c (store w))).
Proof.
  split; [apply check_for_interrupted_jobs_no_raise|].
  split; [apply check_for_interrupted_jobs_recovery|].
  intros Hstep. split.
  - intros t c w1 Hload Hread Hge.
    destruct Hstep as [c' w1' Hload' Hread'|w1' Hload' Hread'
                      |t' c' w1' w2 Hload' Hread' Hlt Hrun
                      |t' c' w1' Hload' Hread' Hge'|t' w1' Hload' Hread'
                      |w1' Hread']; try congruence.
    + rewrite Hload in Hload'. rewrite Hread in Hread'.
      injection Hload' as <-. injection Hread' as <- <-. lia.
    + apply get_valid_volume_world in Hread' as (n & _ & ->).
      split; [|apply polled_store].
      rewrite (since_app _ _ (replicate n (Tx (read_request addr))))
        by apply polled_trace.
      apply actions_reads.
  - intros Hload.
    destruct Hstep as [c' w1' Hload' Hread'|w1' Hload' Hread'
                      |t' c' w1' w2 Hload' Hread' Hlt Hrun
                      |t' c' w1' Hload' Hread' Hge'|t' w1' Hload' Hread'
                      |w1' Hread']; try congruence.
    + right. exists c', w1'. split; [done|].
      apply get_valid_volume_world in Hread' as (n & _ & ->). split.
      * erewrite since_app; [|trace_norm; reflexivity]. by actions_norm.
      * by store_norm.
    + left. apply get_valid_volume_world in Hread' as (n & _ & ->).
      split; [|apply polled_store].
      rewrite (since_app _ _ (replicate n (Tx (read_request addr))))
        by apply polled_trace.
      apply actions_reads.
    + left. apply get_valid_volume_raise in Hread' as (n & ->).
      split; [|by store_norm].
      erewrite since_app; [|trace_norm; reflexivity]. by actions_norm.
Qed.

Lemma recovery_procedure_witness :
  let w := bench [BusFault; meter_reply 7 100; meter_reply 8 150] {[8 := 120]} in
  let w' := polled 8 1 (saved 7 100 (polled 7 1 (advance w))) in
  recovery 9 [6; 7; 8] w w'
  ∧ ((actions (since w (advance w)) = [] ∧ store (advance w) = store w)
     ∨ ∃ c w1,
         get_valid_volume 6 5 w = Ret (Some c) w1
         ∧ actions (since w (advance w)) = [Persist 6 c]
         ∧ store (advance w) = written (flash w (writes w)) 6 c (store w)).
Proof.
  intros w w'. split.
  - apply (proj1 (proj1 (proj2 (recovery_procedure 9 [6; 7; 8] 6 w w')))).
    vm_compute. reflexivity.
  - refine (proj2 (proj2 (proj2 (recovery_procedure 9 [] 6 w (advance w))) _)
              _).
    + apply recovers_caught. vm_compute. reflexivity.
    + vm_compute. reflexivity.
Defined.

(** ** Command ingest *)

Lemma digit_not_space c : is_Some (Text.digit_of c) → Text.is_space c = false.
Proof.
  destruct c as [[] [] [] [] [] [] [] []]; vm_compute; try done;
    intros [? ?]; done.
Qed.

Lemma digit_not_sign c :
  is_Some (Text.digit_of c) → c ≠ "+"%char ∧ c ≠ "-"%char.
Proof.
  destruct c as [[] [] [] [] [] [] [] []]; vm_compute;
    intros [? ?]; done.
Qed.


Lemma digit_not_underscore c :
  is_Some (Text.digit_of c) → Ascii.eqb c "_" = false.
Proof.
  destruct c as [[] [] [] [] [] [] [] []]; vm_compute; try done;
    intros [? ?]; done.
Qed.

(** Digits without separators are left as they are. *)
Lemma ungroup_digits after_digit cs :
  Forall (λ c, is_Some (Text.digit_of c)) cs →
  Text.ungroup after_digit cs = Some cs.
Proof.
  intros Hall. revert after_digit.
  induction Hall as [|c cs Hc _ IH]; intros after_digit; [done|].
  cbn [Text.ungroup]. rewrite digit_not_underscore by done.
  by rewrite IH.
Qed.

Lemma unsigned_value_digits cs :
  cs ≠ [] → Forall (λ c, is_Some (Text.digit_of c)) cs →
  Text.unsigned_value cs = Text.digits_value 0 cs.
Proof.
  intros Hne Hall. unfold Text.unsigned_value.
  rewrite ungroup_digits by done. by destruct cs.
Qed.

Lemma lstrip_digit c cs :
  is_Some (Text.digit_of c) → Text.lstrip (c :: cs) = c :: cs.
Proof. intros H. simpl. by rewrite digit_not_space. Qed.

Lemma strip_digits cs :
  Forall (λ c, is_Some (Text.digit_of c)) cs → Text.strip cs = cs.
Proof.
  intros Hall. unfold Text.strip.
  destruct cs as [|c cs]; [done|].
  rewrite lstrip_digit by (by inversion Hall).
  assert (Hrev : Forall (λ c, is_Some (Text.digit_of c)) (rev (c :: cs))).
  { apply Forall_forall. intros x Hx. rewrite Forall_forall in Hall.
    apply Hall. apply list_elem_of_In. apply in_rev.
    by apply list_elem_of_In. }
  destruct (rev (c :: cs)) as [|c' cs'] eqn:E.
  - apply (f_equal (@length _)) in E. rewrite length_rev in E. done.
  - rewrite lstrip_digit by (by inversion Hrev).
    by rewrite <- E, rev_involutive.
Qed.



Lemma datacb_string message litres s w :
  datacb (Object message litres (JStr s)) w =
  if Text.contains "-" s
  then match Text.py_int (Text.last_segment "-" s) with
       | Some n =>
           if n =? 0 then Ret tt w
           else Ret tt (set_queue
                          (CMD_QUEUE w ++ [mkCommand message n litres (JStr s)])
                          w)
       | None => Ret tt w
       end
  else Ret tt w.
Proof.
  unfold datacb, get_device_Hex, try_except, bind, ret, enqueue, modify.
  destruct (Text.contains "-" s); [|done].
  destruct (Text.py_int (Text.last_segment "-" s)) as [n|]; [|done].
  by destruct (n =? 0).
Qed.




(** ** Frame conditions of the controller code *)

Lemma frame_refl keep w : frame keep w w.
Proof.
  repeat split; try done. exists []. by rewrite app_nil_r.
Qed.

Lemma frame_trans keep w1 w2 w3 :
  frame keep w1 w2 → frame keep w2 w3 → frame keep w1 w3.
Proof.
  intros (Hb1 & Ht1 & (evs1 & He1 & Hn1) & Hq1)
         (Hb2 & Ht2 & (evs2 & He2 & Hn2) & Hq2).
  split; [congruence|]. split; [congruence|]. split.
  - exists (evs1 ++ evs2). split.
    + by rewrite He2, He1, app_assoc.
    + by rewrite forallb_app, Hn1, Hn2.
  - intros Hk. rewrite Hq2, Hq1; done.
Qed.

Lemma quiet_weaken e : quiet true e = true → quiet false e = true.
Proof. unfold quiet. destruct (is_tick e); [done|]. by rewrite orb_true_r. Qed.

Lemma frame_weaken w w' : frame true w w' → frame false w w'.
Proof.
  intros (? & ? & (evs & He & Hq) & ?). repeat split; try done.
  exists evs. split; [done|].
  apply forallb_forall. intros e Hin. apply quiet_weaken.
  by apply (proj1 (forallb_forall _ _) Hq).
Qed.

Lemma frame_advance keep w : frame keep w (advance w).
Proof.
  repeat split; try done. exists []. by rewrite app_nil_r.
Qed.

Lemma frame_emit keep e w : quiet keep e = true → frame keep w (emit e w).
Proof.
  intros He. repeat split; try done. exists [e]. split; [done|].
  simpl. by rewrite He.
Qed.

Lemma frame_set_store keep s w : frame keep w (set_store s w).
Proof.
  repeat split; try done. exists []. by rewrite app_nil_r.
Qed.

Lemma frame_count_write keep w : frame keep w (count_write w).
Proof.
  repeat split; try done. exists []. by rewrite app_nil_r.
Qed.

Lemma frame_set_queue q w : frame false w (set_queue q w).
Proof.
  repeat split; try done. exists []. by rewrite app_nil_r.
Qed.

Lemma Framed_weaken {A} (m : M A) : Framed true m → Framed false m.
Proof. intros H w w' Hw. by apply frame_weaken, H. Qed.

Lemma Framed_ret {A} keep (a : A) : Framed keep (ret a).
Proof. intros w w' [= <-]. apply frame_refl. Qed.

Lemma Framed_raise {A} keep : Framed keep (@raise A).
Proof. intros w w' [= <-]. apply frame_refl. Qed.

Lemma Framed_diverge {A} keep : Framed keep (@diverge A).
Proof. intros w w' [=]. Qed.

Lemma Framed_bind {A B} keep (m : M A) (k : A → M B) :
  Framed keep m → (∀ a, Framed keep (k a)) → Framed keep (bind m k).
Proof.
  intros Hm Hk w w'. unfold bind.
  destruct (m w) as [a w1|w1|] eqn:E; [| |done].
  - intros H. eapply frame_trans; [|by eapply Hk].
    apply Hm. by rewrite E.
  - intros [= <-]. apply Hm. by rewrite E.
Qed.

Lemma Framed_try_except keep (m : M unit) :
  Framed keep m → Framed keep (try_except m).
Proof.
  intros Hm w w'. unfold try_except.
  destruct (m w) as [a w1|w1|] eqn:E; [| |done];
    intros [= <-]; apply Hm; by rewrite E.
Qed.

Lemma Framed_modify keep (f : World → World) :
  (∀ w, frame keep w (f w)) → Framed keep (modify f).
Proof. intros Hf w w' [= <-]. apply Hf. Qed.

Ltac framed_step :=
  first
    [ assumption
    | apply Framed_ret
    | apply Framed_raise
    | apply Framed_diverge
    | apply Framed_try_except
    | apply Framed_bind; [|intros ?]
    | match goal with
      | |- Framed _ (match ?x with _ => _ end) => destruct x
      end ].

Ltac framed := repeat framed_step.

Lemma Framed_sleep keep : Framed keep sleep.
Proof. apply Framed_ret. Qed.

Lemma Framed_uart_write keep frame_bytes : Framed keep (uart_write frame_bytes).
Proof.
  intros w w'. unfold uart_write.
  destruct (bus w (cursor w)); intros [= <-];
    first [apply frame_advance | by apply frame_emit].
Qed.

Lemma Framed_smart_read_modbus keep n : Framed keep (smart_read_modbus n).
Proof.
  intros w w'. unfold smart_read_modbus.
  destruct (bus w (cursor w)); intros [= <-]; apply frame_advance.
Qed.

Lemma Framed_save keep address value :
  Framed keep (save_target_reading address value).
Proof.
  apply Framed_modify. intros w.
  eapply frame_trans; [apply frame_set_store|].
  eapply frame_trans; [apply frame_count_write|by apply frame_emit].
Qed.

Lemma Framed_load keep address : Framed keep (load_target_reading address).
Proof. intros w w' [= <-]. apply frame_refl. Qed.

Lemma Framed_publish keep r : Framed keep (mqttPublish r).
Proof. apply Framed_modify. intros w. by apply frame_emit. Qed.

Lemma Framed_read keep address : Framed keep (read_cumulative_flow address).
Proof.
  unfold read_cumulative_flow, clear_uart_buffer.
  pose proof (Framed_sleep keep).
  pose proof (Framed_uart_write keep).
  pose proof (Framed_smart_read_modbus keep).
  framed; eauto.
Qed.

Lemma Framed_write_register keep address reg value :
  Framed keep (write_single_register address reg value).
Proof.
  unfold write_single_register, clear_uart_buffer.
  pose proof (Framed_sleep keep).
  pose proof (Framed_uart_write keep).
  pose proof (Framed_smart_read_modbus keep).
  framed; eauto.
Qed.

Lemma Framed_open_valve keep address : Framed keep (open_valve address).
Proof.
  unfold open_valve. apply Framed_bind; [apply Framed_write_register|].
  intros _. apply Framed_sleep.
Qed.

Lemma Framed_close_valve keep address : Framed keep (close_valve address).
Proof.
  unfold close_valve. apply Framed_bind; [apply Framed_write_register|].
  intros _. apply Framed_sleep.
Qed.

Lemma Framed_get_valid_volume keep address retries :
  Framed keep (get_valid_volume address retries).
Proof.
  induction retries as [|n IH]; cbn [get_valid_volume]; [apply Framed_ret|].
  apply Framed_bind; [apply Framed_read|]. intros [v|]; [apply Framed_ret|].
  apply Framed_bind; [apply Framed_sleep|]. by intros _.
Qed.

Lemma Framed_monitoring keep fuel address start target last errs :
  Framed keep (monitoring fuel address start target last errs).
Proof.
  revert last errs.
  induction fuel as [|fuel IH]; intros last errs; cbn [monitoring];
    [apply Framed_diverge|].
  apply Framed_bind; [apply Framed_read|]. intros [v|].
  - destruct (target <=? v).
    + apply Framed_bind; [apply Framed_close_valve|]. intros _.
      apply Framed_bind; [apply Framed_save|]. intros _. apply Framed_ret.
    + apply Framed_bind; [apply Framed_sleep|]. intros _. apply IH.
  - cbv zeta. destruct (max_errors <=? errs + 1).
    + apply Framed_bind; [apply Framed_close_valve|]. intros _.
      apply Framed_ret.
    + apply Framed_bind; [apply Framed_sleep|]. intros _. apply IH.
Qed.

Lemma Framed_dispense_batch keep fuel address liters :
  Framed keep (dispense_batch fuel address liters).
Proof.
  unfold dispense_batch.
  apply Framed_bind; [apply Framed_get_valid_volume|].
  intros [start|]; [|apply Framed_ret]. cbv zeta.
  apply Framed_bind; [apply Framed_save|]. intros _.
  apply Framed_bind; [apply Framed_open_valve|]. intros _.
  apply Framed_bind; [apply Framed_sleep|]. intros _.
  apply Framed_monitoring.
Qed.

Lemma Framed_recover_address keep fuel addr :
  Framed keep (recover_address fuel addr).
Proof.
  unfold recover_address.
  apply Framed_bind; [apply Framed_load|]. intros [t|].
  - apply Framed_bind; [apply Framed_get_valid_volume|].
    intros [c|]; [|apply Framed_ret].
    destruct (c <? t); [|apply Framed_ret]. cbv zeta.
    apply Framed_bind; [apply Framed_publish|]. intros _.
    apply Framed_bind; [apply Framed_dispense_batch|]. intros _.
    apply Framed_ret.
  - apply Framed_bind; [apply Framed_get_valid_volume|].
    intros [c|]; [apply Framed_save|apply Framed_ret].
Qed.

Lemma Framed_check_for_interrupted_jobs keep fuel addresses :
  Framed keep (check_for_interrupted_jobs fuel addresses).
Proof.
  induction addresses as [|addr rest IH]; cbn [check_for_interrupted_jobs];
    [apply Framed_ret|].
  apply Framed_bind; [|by intros _].
  apply Framed_try_except, Framed_recover_address.
Qed.

Lemma Framed_process_item keep fuel item :
  Framed keep (process_item fuel item).
Proof.
  unfold process_item. cbv zeta.
  destruct (is_cmd (c_type item) "success").
  - destruct (c_litres item) as [|litres|]; try apply Framed_raise.
    destruct (0 <? litres); [|apply Framed_ret].
    apply Framed_bind; [apply Framed_publish|]. intros _.
    apply Framed_bind; [apply Framed_dispense_batch|].
    intros [d f|reason d]; apply Framed_publish.
  - destruct (is_cmd (c_type item) "valve_open").
    + apply Framed_bind; [apply Framed_open_valve|]. intros _.
      apply Framed_publish.
    + destruct (is_cmd (c_type item) "valve_close"); [|apply Framed_ret].
      apply Framed_bind; [apply Framed_close_valve|]. intros _.
      apply Framed_publish.
Qed.

Lemma Framed_process_command_queue fuel :
  Framed false (process_command_queue fuel).
Proof.
  induction fuel as [|fuel IH]; intros w w'; cbn [process_command_queue];
    destruct (CMD_QUEUE w) as [|item rest] eqn:Hq;
    try (intros [= <-]; apply frame_refl); try done.
  intros H. eapply frame_trans; [apply (frame_set_queue rest)|].
  eapply frame_trans; [by apply (frame_emit _ (Dequeued item))|].
  revert H. apply Framed_bind.
  - apply Framed_try_except, Framed_process_item.
  - intros _. apply Framed_bind; [apply Framed_sleep|]. by intros _.
Qed.

Lemma Framed_datacb msg : Framed false (datacb msg).
Proof.
  unfold datacb. apply Framed_try_except.
  destruct msg as [|message litres deviceID]; [apply Framed_raise|].
  apply Framed_bind.
  - unfold get_device_Hex. destruct deviceID as [|n|s];
      try apply Framed_raise.
    destruct (Text.contains "-" s); apply Framed_ret.
  - intros [a|]; [|apply Framed_ret].
    destruct (a =? 0); [apply Framed_ret|].
    apply Framed_modify. intros w. apply frame_set_queue.
Qed.

(** ** The command queue *)

(** Processing an item leaves the queue alone. *)
Lemma process_item_keeps_queue fuel item w w' :
  try_except (process_item fuel item) w = Ret tt w' →
  CMD_QUEUE w' = CMD_QUEUE w.
Proof.
  intros H.
  pose proof (Framed_try_except true _
                (Framed_process_item true fuel item) w w') as HF.
  rewrite H in HF. destruct (HF eq_refl) as (_ & _ & _ & Hq). by apply Hq.
Qed.

(** The loop ends only on an empty queue. *)
Lemma process_command_queue_empties fuel :
  ∀ w w', process_command_queue fuel w = Ret tt w' → CMD_QUEUE w' = [].
Proof.
  induction fuel as [|fuel IH]; intros w w'; cbn [process_command_queue];
    destruct (CMD_QUEUE w) as [|item rest] eqn:Hq; try done;
    try (by intros [= <-]).
  unfold bind at 1.
  destruct (try_except (process_item fuel item)
              (emit (Dequeued item) (set_queue rest w)))
    as [[] w1|w1|w1]; [|done..].
  unfold bind, sleep, ret. apply IH.
Qed.

(** *** The producer: [datacb] appends at the tail *)









(** *** The consumer does not look at the queue while it works

    [blind m]: [m] neither reads nor writes the queue, so what is
    appended while [m] runs is the same as what is appended after it. *)

Lemma blind_ret {A} (a : A) q w :
  ret a (set_queue q w) = on_world (set_queue q) (ret a w).
Proof. done. Qed.















(** *** The consumer takes the head, one item at a time *)










(** ** The liveness timestamp *)

Lemma ticks_app tr1 tr2 : ticks (tr1 ++ tr2) = ticks tr1 ++ ticks tr2.
Proof. apply omap_app. Qed.

Lemma ticks_none keep evs :
  forallb (quiet keep) evs = true → ticks evs = [].
Proof.
  induction evs as [|e evs IH]; [done|]. simpl.
  intros [He Hall]%andb_true_iff. destruct e; try done; by apply IH.
Qed.

Lemma frame_ticks keep w w' :
  frame keep w w' →
  last_alive_tick w' = last_alive_tick w ∧ ticks (since w w') = [].
Proof.
  intros (_ & Ht & (evs & He & Hn) & _). split; [done|].
  rewrite (since_app _ _ _ He). by eapply ticks_none.
Qed.

Lemma Framed_read_meter_only keep addresses :
  Framed keep (read_meter_only addresses).
Proof.
  induction addresses as [|address rest IH]; cbn [read_meter_only];
    [apply Framed_ret|].
  apply Framed_bind; [apply Framed_get_valid_volume|].
  intros [c|]; [|done].
  apply Framed_bind; [apply Framed_load|]. intros target. cbv zeta.
  apply Framed_bind; [apply Framed_publish|]. by intros _.
Qed.

Lemma supervisor_withholds now w :
  1200 <= now - last_alive_tick w → supervisor_feeds now w = false.
Proof. intros H. unfold supervisor_feeds. apply Z.ltb_ge. lia. Qed.

(** A completed pass of the controller loop writes the timestamp three
    times: on entry and on both sides of the idle sleep. *)
Lemma monitor_pass_ticks fuel t1 t2 t3 gsm_up mqtt_connected addresses w w' :
  monitor_pass fuel t1 t2 t3 gsm_up mqtt_connected addresses w
  = Ret Continue w' →
  ticks (since w w') = [t1; t2; t3] ∧ last_alive_tick w' = t3.
Proof.
  unfold monitor_pass. unfold bind at 1. unfold report_alive at 1, modify.
  set (w1 := emit (Ticked t1) (set_tick t1 w)).
  unfold bind at 1.
  destruct (process_command_queue fuel w1) as [[] w2|w2|] eqn:Hq; [|done..].
  destruct gsm_up; [|done]. cbn [negb].
  unfold bind at 1.
  set (idle := if mqtt_connected
               then try_except (read_meter_only addresses) else ret tt).
  destruct (idle w2) as [[] w3|w3|] eqn:Hidle; [|done..].
  unfold bind, report_alive, modify, sleep, ret. intros [= <-].
  split; [|done].
  assert (F12 : frame false w1 w2).
  { apply (Framed_process_command_queue fuel w1 w2). by rewrite Hq. }
  assert (F23 : frame false w2 w3).
  { assert (HF : Framed false idle).
    { subst idle. destruct mqtt_connected; [|apply Framed_ret].
      apply Framed_try_except, Framed_read_meter_only. }
    apply (HF w2 w3). by rewrite Hidle. }
  pose proof (frame_trans _ _ _ _ F12 F23) as (_ & _ & (evs & He & Hn) & _).
  erewrite since_app.
  2:{ fields. rewrite He. subst w1. fields.
      rewrite <- !app_assoc. reflexivity. }
  rewrite !ticks_app, (ticks_none _ evs Hn). reflexivity.
Qed.

(** C9: neither [dispense_batch] nor the recovery procedure writes
    [last_alive_tick]: after any run of either the timestamp is the one
    before the call and the trace shows no write in between, so when the
    supervisor looks at a time [now] at least 1200 s after that timestamp
    it does not feed the watchdog; the writes are those of the controller
    loop, three per completed pass. *)
Theorem liveness_tick_untouched
    (fuel : nat) (address liters : Z) (addresses : list Z)
    (t1 t2 t3 now : Z) (gsm_up mqtt_connected : bool) (w w' : World) :
  (final_world (dispense_batch fuel address liters w) = Some w'
   ∨ final_world (check_for_interrupted_jobs fuel addresses w) = Some w' →
   last_alive_tick w' = last_alive_tick w
   ∧ ticks (since w w') = []
   ∧ (1200 <= now - last_alive_tick w → supervisor_feeds now w' = false))
  ∧ (monitor_pass fuel t1 t2 t3 gsm_up mqtt_connected addresses w
     = Ret Continue w' →
     ticks (since w w') = [t1; t2; t3] ∧ last_alive_tick w' = t3).
Proof.
  split; [|apply monitor_pass_ticks].
  intros Hrun.
  assert (HF : frame true w w').
  { destruct Hrun as [H|H].
    - by apply (Framed_dispense_batch true fuel address liters).
    - by apply (Framed_check_for_interrupted_jobs true fuel addresses). }
  apply frame_ticks in HF as [Ht Hn].
  split; [done|]. split; [done|].
  intros Hlate. apply supervisor_withholds. by rewrite Ht.
Qed.

Lemma liveness_tick_untouched_witness :
  let w := bench [meter_reply 6 150; write_ack 6; meter_reply 6 160;
                  meter_reply 6 175; write_ack 6] ∅ in
  let w' := saved 6 175
              (exchanged (close_command 6)
                 (polled 6 2
                    (exchanged (open_command 6)
                       (saved 6 170 (polled 6 1 w))))) in
  (last_alive_tick w' = last_alive_tick w
   ∧ ticks (since w w') = []
   ∧ (1200 <= 1500 - last_alive_tick w → supervisor_feeds 1500 w' = false))
  ∧ ∃ w'',
      monitor_pass 3 100 101 281 true false [6] w = Ret Continue w''
      ∧ ticks (since w w'') = [100; 101; 281]
      ∧ last_alive_tick w'' = 281.
Proof.
  intros w w'. split.
  - apply (proj1 (liveness_tick_untouched 2 6 20 [] 0 0 0 1500 true true w w')).
    left. vm_compute. reflexivity.
  - eexists. split; [vm_compute; reflexivity|].
    apply (proj2 (liveness_tick_untouched 3 6 20 [6] 100 101 281 0
                    true false w _)).
    vm_compute. reflexivity.
Defined.

(** * Further properties of the code *)

(** ** Codec: error detection and frame layout *)

Lemma crc_unround_round x :
  Codec.is_word16 x → crc_unround (Codec.crc_round x) = x.
Proof.
  intros [Hx Hx'].
  assert (Hhalf : Z.shiftr x 1 = x / 2)
    by (by rewrite Z.shiftr_div_pow2 by lia).
  assert (Hlow : Z.land x 1 = x mod 2)
    by (change 1 with (Z.ones 1) at 1; by rewrite Z.land_ones by lia).
  assert (Hbit : Z.testbit (x / 2) 15 = false).
  { destruct (Z.eq_dec (x / 2) 0) as [->|Hne]; [done|].
    assert (0 < x / 2) by (pose proof (Z.div_pos x 2); lia).
    apply Z.bits_above_log2; [lia|].
    assert (Z.log2 (x / 2) < 15); [|lia].
    apply Z.log2_lt_pow2; [lia|]. apply Z.div_lt_upper_bound; lia. }
  pose proof (Z.div_mod x 2 ltac:(lia)) as Hdm.
  pose proof (Z.mod_pos_bound x 2 ltac:(lia)) as Hm.
  unfold Codec.crc_round, crc_unround. rewrite Hhalf, Hlow.
  destruct (x mod 2 =? 0) eqn:Hpar; cbn [negb].
  - apply Z.eqb_eq in Hpar. rewrite Hbit. lia.
  - apply Z.eqb_neq in Hpar.
    rewrite Z.lxor_spec, Hbit. cbn [xorb].
    change (Z.testbit 40961 15) with true. cbn [negb].
    rewrite Z.lxor_assoc, Z.lxor_nilpotent, Z.lxor_0_r. lia.
Qed.

Lemma crc_round_inj x y :
  Codec.is_word16 x → Codec.is_word16 y →
  Codec.crc_round x = Codec.crc_round y → x = y.
Proof.
  intros Hx Hy H.
  rewrite <- (crc_unround_round x Hx), <- (crc_unround_round y Hy).
  by rewrite H.
Qed.

Lemma iter_crc_round_word16 n x :
  Codec.is_word16 x → Codec.is_word16 (Nat.iter n Codec.crc_round x).
Proof.
  intros Hx. induction n as [|n IH]; [done|].
  rewrite Nat.iter_succ. by apply crc_round_word16.
Qed.

Lemma iter_crc_round_inj n x y :
  Codec.is_word16 x → Codec.is_word16 y →
  Nat.iter n Codec.crc_round x = Nat.iter n Codec.crc_round y → x = y.
Proof.
  intros Hx Hy. induction n as [|n IH]; [done|].
  rewrite !Nat.iter_succ. intros H. apply IH.
  apply crc_round_inj; [by apply iter_crc_round_word16..|done].
Qed.

Lemma lxor_cancel_r a a' b : Z.lxor a b = Z.lxor a' b → a = a'.
Proof.
  intros H. apply (f_equal (λ z, Z.lxor z b)) in H.
  by rewrite !Z.lxor_assoc, Z.lxor_nilpotent, !Z.lxor_0_r in H.
Qed.

Lemma lxor_cancel_l a b b' : Z.lxor a b = Z.lxor a b' → b = b'.
Proof.
  rewrite (Z.lxor_comm a b), (Z.lxor_comm a b'). apply lxor_cancel_r.
Qed.

Lemma byte_word16 b : Codec.is_byte b → Codec.is_word16 b.
Proof. unfold Codec.is_byte, Codec.is_word16. lia. Qed.

Lemma crc_byte_inj_state c c' b :
  Codec.is_word16 c → Codec.is_word16 c' → Codec.is_byte b →
  Codec.crc_byte c b = Codec.crc_byte c' b → c = c'.
Proof.
  intros Hc Hc' Hb H. unfold Codec.crc_byte in H.
  apply iter_crc_round_inj in H;
    [by eapply lxor_cancel_r
    |apply lxor_word16; [done|by apply byte_word16]..].
Qed.

Lemma crc_byte_inj_byte c b b' :
  Codec.is_word16 c → Codec.is_byte b → Codec.is_byte b' →
  Codec.crc_byte c b = Codec.crc_byte c b' → b = b'.
Proof.
  intros Hc Hb Hb' H. unfold Codec.crc_byte in H.
  apply iter_crc_round_inj in H;
    [by eapply lxor_cancel_l
    |apply lxor_word16; [done|by apply byte_word16]..].
Qed.

Lemma fold_crc_inj data c c' :
  Forall Codec.is_byte data → Codec.is_word16 c → Codec.is_word16 c' →
  fold_left Codec.crc_byte data c = fold_left Codec.crc_byte data c' →
  c = c'.
Proof.
  intros Hd. revert c c'.
  induction Hd as [|b data Hb _ IH]; intros c c' Hc Hc'; cbn [fold_left];
    [done|].
  intros H. apply IH in H; [|by apply crc_byte_word16..].
  by eapply crc_byte_inj_state.
Qed.

(** Changing one byte of the data changes the checksum. *)
Lemma calculate_crc_byte_change pre post b b' :
  Forall Codec.is_byte pre → Forall Codec.is_byte post →
  Codec.is_byte b → Codec.is_byte b' → b ≠ b' →
  Codec.calculate_crc (pre ++ b :: post)
  ≠ Codec.calculate_crc (pre ++ b' :: post).
Proof.
  intros Hpre Hpost Hb Hb' Hne. unfold Codec.calculate_crc.
  rewrite !fold_left_app. cbn [fold_left]. intros H.
  assert (Hc : Codec.is_word16 (fold_left Codec.crc_byte pre 65535)).
  { apply fold_crc_word16; [|done]. unfold Codec.is_word16. lia. }
  apply fold_crc_inj in H; [|done|by apply crc_byte_word16..].
  by apply crc_byte_inj_byte in H.
Qed.

Lemma byte_high_bits b n : Codec.is_byte b → 8 <= n → Z.testbit b n = false.
Proof.
  intros [Hb Hb'] Hn.
  destruct (Z.eq_dec b 0) as [->|Hne]; [apply Z.bits_0|].
  apply Z.bits_above_log2; [done|].
  assert (Z.log2 b < 8) by (apply Z.log2_lt_pow2; lia). lia.
Qed.

Lemma byte_pair_low lo hi :
  Codec.is_byte lo → Z.land (Z.lor lo (Z.shiftl hi 8)) 0xFF = lo.
Proof.
  intros Hlo. apply Z.bits_inj'. intros n Hn.
  rewrite Z.land_spec, Z.lor_spec. change 0xFF with (Z.ones 8).
  destruct (Z.lt_ge_cases n 8) as [Hlt|Hge].
  - rewrite Z.shiftl_spec_low by lia.
    rewrite Z.ones_spec_low by lia.
    by rewrite orb_false_r, andb_true_r.
  - rewrite Z.ones_spec_high by lia.
    by rewrite andb_false_r, byte_high_bits.
Qed.

Lemma byte_pair_high lo hi :
  Codec.is_byte lo → Z.shiftr (Z.lor lo (Z.shiftl hi 8)) 8 = hi.
Proof.
  intros Hlo. apply Z.bits_inj'. intros n Hn.
  rewrite Z.shiftr_spec, Z.lor_spec by done.
  rewrite Z.shiftl_spec by lia.
  rewrite byte_high_bits by (done || lia).
  rewrite orb_false_l. f_equal. lia.
Qed.

Lemma byte_pair_inj lo hi lo' hi' :
  Codec.is_byte lo → Codec.is_byte lo' →
  Z.lor lo (Z.shiftl hi 8) = Z.lor lo' (Z.shiftl hi' 8) →
  lo = lo' ∧ hi = hi'.
Proof.
  intros Hlo Hlo' H. split.
  - rewrite <- (byte_pair_low lo hi Hlo), <- (byte_pair_low lo' hi' Hlo').
    by rewrite H.
  - rewrite <- (byte_pair_high lo hi Hlo), <- (byte_pair_high lo' hi' Hlo').
    by rewrite H.
Qed.

Lemma land_255_byte x : Codec.is_byte (Z.land x 0xFF).
Proof.
  unfold Codec.is_byte. change 0xFF with (Z.ones 8).
  rewrite Z.land_ones by lia. apply Z.mod_pos_bound. lia.
Qed.

Lemma land_255_id b : Codec.is_byte b → Z.land b 0xFF = b.
Proof.
  intros [Hb Hb']. change 0xFF with (Z.ones 8).
  rewrite Z.land_ones by lia. apply Z.mod_small. simpl. lia.
Qed.

Lemma append_crc_bytes data :
  Forall Codec.is_byte data → Forall Codec.is_byte (Codec.append_crc data).
Proof.
  intros Hd. unfold Codec.append_crc. apply Forall_app. split; [done|].
  repeat constructor; apply land_255_byte.
Qed.

Lemma append_crc_length data :
  length (Codec.append_crc data) = S (S (length data)).
Proof. unfold Codec.append_crc. rewrite length_app. simpl. lia. Qed.

(** X1: in a frame that carries a non-empty byte string and its checksum,
    replacing any one byte (of the data or of the checksum) by a different
    byte makes [verify_crc] fail. *)
Theorem crc_detects_corrupt_byte
    (pre post : list Z) (b b' lo hi c' : Z) :
  Forall Codec.is_byte pre → Forall Codec.is_byte post →
  Codec.is_byte b → Codec.is_byte b' → b ≠ b' →
  Codec.is_byte c' →
  Codec.append_crc (pre ++ b :: post) = (pre ++ b :: post) ++ [lo; hi] →
  Codec.verify_crc ((pre ++ b :: post) ++ [lo; hi]) = true
  ∧ Codec.verify_crc ((pre ++ b' :: post) ++ [lo; hi]) = false
  ∧ (c' ≠ lo → Codec.verify_crc ((pre ++ b :: post) ++ [c'; hi]) = false)
  ∧ (c' ≠ hi → Codec.verify_crc ((pre ++ b :: post) ++ [lo; c']) = false).
Proof.
  intros Hpre Hpost Hb Hb' Hne Hc' Hframe.
  assert (Hdata : Forall Codec.is_byte (pre ++ b :: post)).
  { apply Forall_app. split; [done|]. by constructor. }
  assert (Hnil : pre ++ b :: post ≠ []) by (by destruct pre).
  assert (Hnil' : pre ++ b' :: post ≠ []) by (by destruct pre).
  pose proof (verify_append_crc _ Hnil Hdata) as Hok.
  rewrite Hframe in Hok.
  pose proof Hok as Hcrc.
  rewrite verify_crc_append in Hcrc by done. apply Z.eqb_eq in Hcrc.
  assert (Hlo : Codec.is_byte lo ∧ Codec.is_byte hi).
  { pose proof (append_crc_bytes _ Hdata) as Hall.
    rewrite Hframe in Hall. apply Forall_app in Hall as [_ Hall].
    inversion Hall as [|? ? ? Hrest]; subst.
    inversion Hrest; subst. done. }
  destruct Hlo as [Hlo Hhi].
  split; [done|]. split; [|split].
  - rewrite verify_crc_append by done. apply Z.eqb_neq.
    rewrite <- Hcrc. intros H. symmetry in H.
    by apply calculate_crc_byte_change in H.
  - intros Hc. rewrite verify_crc_append by done. apply Z.eqb_neq.
    rewrite Hcrc. intros H. apply byte_pair_inj in H as [? ?]; done.
  - intros Hc. rewrite verify_crc_append by done. apply Z.eqb_neq.
    rewrite Hcrc. intros H. apply byte_pair_inj in H as [? ?]; done.
Qed.

Lemma crc_detects_corrupt_byte_witness :
  Codec.verify_crc ([6; 3] ++ 0 :: [14; 0; 2] ++ [164; 127]) = true
  ∧ Codec.verify_crc (([6; 3] ++ 1 :: [14; 0; 2]) ++ [164; 127]) = false
  ∧ (165 ≠ 164 →
     Codec.verify_crc (([6; 3] ++ 0 :: [14; 0; 2]) ++ [165; 127]) = false)
  ∧ (165 ≠ 127 →
     Codec.verify_crc (([6; 3] ++ 0 :: [14; 0; 2]) ++ [164; 165]) = false).
Proof.
  apply (crc_detects_corrupt_byte [6; 3] [14; 0; 2] 0 1 164 127 165);
    unfold Codec.is_byte; repeat constructor; lia.
Defined.

Lemma word16_bytes_be r :
  Codec.is_word16 r →
  Z.lor (Z.shiftl (Z.land (Z.shiftr r 8) 0xFF) 8) (Z.land r 0xFF) = r.
Proof. intros Hr. rewrite Z.lor_comm. by apply word16_bytes. Qed.

Lemma lor_word16 a b :
  Codec.is_word16 a → Codec.is_word16 b → Codec.is_word16 (Z.lor a b).
Proof.
  unfold Codec.is_word16. intros [Ha Ha'] [Hb Hb']. split.
  - apply Z.lor_nonneg. done.
  - destruct (Z.eq_dec (Z.lor a b) 0) as [->|Hne]; [lia|].
    assert (0 <= Z.lor a b) by (by apply Z.lor_nonneg).
    change 65536 with (2 ^ 16). apply Z.log2_lt_pow2; [lia|].
    rewrite Z.log2_lor by done.
    assert (Z.log2 a < 16).
    { destruct (Z.eq_dec a 0) as [->|]; [simpl; lia|].
      apply Z.log2_lt_pow2; lia. }
    assert (Z.log2 b < 16).
    { destruct (Z.eq_dec b 0) as [->|]; [simpl; lia|].
      apply Z.log2_lt_pow2; lia. }
    lia.
Qed.

Lemma byte_pair_word16 hi lo :
  Codec.is_byte hi → Codec.is_byte lo →
  Codec.is_word16 (Z.lor (Z.shiftl hi 8) lo).
Proof.
  intros [Hh Hh'] Hl. apply lor_word16; [|by apply byte_word16].
  unfold Codec.is_word16. rewrite Z.shiftl_mul_pow2 by lia.
  change (2 ^ 8) with 256. lia.
Qed.

(** X2: whatever integers it is given, [build_modbus_request] yields an
    eight-byte string that passes [verify_crc]; an address and a function
    code that are bytes are stored as they are, and a 16-bit register
    address and count are stored high byte first. *)
Theorem request_frame_well_formed
    (address function_code register_address register_count : Z) :
  length (Codec.build_modbus_request address function_code
            register_address register_count) = 8%nat
  ∧ Forall Codec.is_byte
      (Codec.build_modbus_request address function_code
         register_address register_count)
  ∧ Codec.verify_crc
      (Codec.build_modbus_request address function_code
         register_address register_count) = true
  ∧ (Codec.is_byte address →
     nth 0 (Codec.build_modbus_request address function_code
              register_address register_count) 0 = address)
  ∧ (Codec.is_byte function_code →
     nth 1 (Codec.build_modbus_request address function_code
              register_address register_count) 0 = function_code)
  ∧ (Codec.is_word16 register_address →
     Z.lor
       (Z.shiftl
          (nth 2 (Codec.build_modbus_request address function_code
                    register_address register_count) 0) 8)
       (nth 3 (Codec.build_modbus_request address function_code
                 register_address register_count) 0)
     = register_address)
  ∧ (Codec.is_word16 register_count →
     Z.lor
       (Z.shiftl
          (nth 4 (Codec.build_modbus_request address function_code
                    register_address register_count) 0) 8)
       (nth 5 (Codec.build_modbus_request address function_code
                 register_address register_count) 0)
     = register_count).
Proof.
  unfold Codec.build_modbus_request, Codec.to_byte.
  set (body := [Z.land address 255; Z.land function_code 255;
                Z.land (Z.shiftr register_address 8) 255;
                Z.land register_address 255;
                Z.land (Z.shiftr register_count 8) 255;
                Z.land register_count 255]).
  assert (Hbody : Forall Codec.is_byte body)
    by (repeat constructor; apply land_255_byte).
  split; [by rewrite append_crc_length|].
  split; [by apply append_crc_bytes|].
  split; [by apply verify_append_crc|].
  unfold Codec.append_crc.
  repeat split; intros H; cbn [body app nth].
  - by apply land_255_id.
  - by apply land_255_id.
  - by apply word16_bytes_be.
  - by apply word16_bytes_be.
Qed.

Lemma request_frame_well_formed_witness :
  nth 0 (Codec.build_modbus_request 6 3 14 2) 0 = 6
  ∧ nth 1 (Codec.build_modbus_request 6 3 14 2) 0 = 3
  ∧ Z.lor (Z.shiftl (nth 2 (Codec.build_modbus_request 6 3 14 2) 0) 8)
      (nth 3 (Codec.build_modbus_request 6 3 14 2) 0) = 14
  ∧ Z.lor (Z.shiftl (nth 4 (Codec.build_modbus_request 6 3 14 2) 0) 8)
      (nth 5 (Codec.build_modbus_request 6 3 14 2) 0) = 2.
Proof.
  pose proof (request_frame_well_formed 6 3 14 2)
    as (_ & _ & _ & H0 & H1 & H2 & H3).
  unfold Codec.is_byte, Codec.is_word16 in *.
  split; [apply H0; lia|]. split; [apply H1; lia|].
  split; [apply H2; lia|apply H3; lia].
Defined.

(** X3: the frame of [write_single_register] is an eleven-byte string
    that passes [verify_crc]; it carries function code 0x10, one register
    and two data bytes, and a 16-bit value high byte first, so the open
    and the close command of one valve are different frames. *)
Theorem write_frame_well_formed (address register_address value : Z) :
  length (Codec.write_request address register_address value) = 11%nat
  ∧ Forall Codec.is_byte (Codec.write_request address register_address value)
  ∧ Codec.verify_crc (Codec.write_request address register_address value)
    = true
  ∧ take 7 (drop 1 (Codec.write_request address register_address value))
    = [16; Z.land (Z.shiftr register_address 8) 255;
       Z.land register_address 255; 0; 1; 2;
       Z.land (Z.shiftr value 8) 255]
  ∧ (Codec.is_byte address →
     nth 0 (Codec.write_request address register_address value) 0 = address)
  ∧ (Codec.is_word16 value →
     Z.lor
       (Z.shiftl
          (nth 7 (Codec.write_request address register_address value) 0) 8)
       (nth 8 (Codec.write_request address register_address value) 0)
     = value)
  ∧ open_command address ≠ close_command address.
Proof.
  unfold Codec.write_request, Codec.to_byte.
  set (body := [Z.land address 255; 16;
                Z.land (Z.shiftr register_address 8) 255;
                Z.land register_address 255; 0; 1; 2;
                Z.land (Z.shiftr value 8) 255; Z.land value 255]).
  assert (Hbody : Forall Codec.is_byte body).
  { repeat constructor; try apply land_255_byte; unfold Codec.is_byte; lia. }
  split; [by rewrite append_crc_length|].
  split; [by apply append_crc_bytes|].
  split; [by apply verify_append_crc|].
  split; [done|].
  unfold Codec.append_crc.
  split; [|split].
  - intros H. cbn [body app nth]. by apply land_255_id.
  - intros H. cbn [body app nth]. by apply word16_bytes_be.
  - intros H. apply (f_equal frame_kind) in H.
    by rewrite frame_kind_open, frame_kind_close in H.
Qed.

Lemma write_frame_well_formed_witness :
  nth 0 (Codec.write_request 6 96 2) 0 = 6
  ∧ Z.lor (Z.shiftl (nth 7 (Codec.write_request 6 96 2) 0) 8)
      (nth 8 (Codec.write_request 6 96 2) 0) = 2.
Proof.
  pose proof (write_frame_well_formed 6 96 2) as (_ & _ & _ & _ & H0 & H1 & _).
  unfold Codec.is_byte, Codec.is_word16 in *.
  split; [apply H0; lia|apply H1; lia].
Defined.

Lemma nth_take_lt {A} (l : list A) n i d :
  (i < n)%nat → nth i (take n l) d = nth i l d.
Proof.
  revert n i. induction l as [|x l IH]; intros n i Hi.
  - by rewrite take_nil.
  - destruct n as [|n]; [lia|]. destruct i as [|i]; [done|].
    simpl. apply IH. lia.
Qed.

(** X4: a response whose first nine bytes are seven payload bytes with
    their checksum, the first of them the polled address, is decoded by
    [read_cumulative_flow] to [(payload[3] << 8) | payload[4]], a 16-bit
    value; bytes after the ninth are ignored. *)
Theorem flow_response_decoding
    (address : Z) (payload extra : list Z) (w : World) :
  length payload = 7%nat →
  Forall Codec.is_byte payload →
  nth 0 payload 0 = address →
  bus w (cursor w) = Arrived (Codec.append_crc payload ++ extra) →
  read_cumulative_flow address w
  = Ret (Some (Z.lor (Z.shiftl (nth 3 payload 0) 8) (nth 4 payload 0)))
      (exchanged (read_request address) w)
  ∧ Codec.is_word16 (Z.lor (Z.shiftl (nth 3 payload 0) 8) (nth 4 payload 0)).
Proof.
  intros Hlen Hbytes Haddr Hbus. split.
  - apply read_some. rewrite Hbus. unfold reading, uart_read.
    assert (Hnine : length (Codec.append_crc payload) = 9%nat)
      by (rewrite append_crc_length; lia).
    destruct (Codec.append_crc payload ++ extra) as [|x rest] eqn:E.
    { apply (f_equal (@length _)) in E. rewrite length_app in E.
      simpl in E. lia. }
    rewrite <- E. rewrite take_app_length' by done.
    unfold decode_flow. rewrite Hnine.
    rewrite verify_append_crc by (done || by destruct payload).
    cbn [Nat.eqb negb andb].
    unfold Codec.append_crc.
    rewrite !app_nth1 by lia. rewrite Haddr, Z.eqb_refl. done.
  - do 5 (destruct payload as [|? payload]; [done|]).
    cbn [nth].
    apply Forall_cons in Hbytes as [_ Hbytes].
    apply Forall_cons in Hbytes as [_ Hbytes].
    apply Forall_cons in Hbytes as [_ Hbytes].
    apply Forall_cons in Hbytes as [H3 Hbytes].
    apply Forall_cons in Hbytes as [H4 _].
    by apply byte_pair_word16.
Qed.

Lemma flow_response_decoding_witness :
  let w := bench [Arrived (Codec.append_crc [6; 3; 4; 1; 44; 0; 0] ++ [9])] ∅ in
  read_cumulative_flow 6 w
  = Ret (Some (Z.lor (Z.shiftl 1 8) 44)) (exchanged (read_request 6) w)
  ∧ Codec.is_word16 (Z.lor (Z.shiftl 1 8) 44).
Proof.
  intros w.
  apply (flow_response_decoding 6 [6; 3; 4; 1; 44; 0; 0] [9] w).
  - reflexivity.
  - unfold Codec.is_byte. repeat constructor; lia.
  - reflexivity.
  - reflexivity.
Defined.

(** ** Text: splitting, parsing and printing *)

Lemma split_nonempty sep s : Text.split sep s ≠ [].
Proof.
  destruct s as [|c s]; [done|]. simpl.
  destruct (Ascii.eqb c sep); [done|]. by destruct (Text.split sep s).
Qed.

Lemma split_no_sep sep s :
  Text.contains sep s = false → Text.split sep s = [s].
Proof.
  induction s as [|c s IH]; [done|]. simpl.
  intros [Hc Hs]%orb_false_iff. rewrite Hc, (IH Hs). done.
Qed.

Lemma split_length sep s :
  Text.contains sep s = true → (2 <= length (Text.split sep s))%nat.
Proof.
  induction s as [|c s IH]; [done|]. simpl.
  destruct (Ascii.eqb c sep) eqn:Hc.
  - intros _. simpl. pose proof (split_nonempty sep s).
    destruct (Text.split sep s); [done|]. simpl. lia.
  - simpl. intros Hs. specialize (IH Hs).
    destruct (Text.split sep s) as [|seg segs]; simpl in *; lia.
Qed.

(** Splitting loses nothing: joining the segments with the separator
    gives the string back, and no segment contains the separator. *)
Lemma join_split sep s : Decimal.join sep (Text.split sep s) = s.
Proof.
  induction s as [|c s IH]; [done|]. simpl.
  destruct (Ascii.eqb c sep) eqn:Hc.
  - apply Ascii.eqb_eq in Hc as ->.
    pose proof (split_nonempty sep s).
    destruct (Text.split sep s) as [|seg segs] eqn:E; [done|].
    cbn [Decimal.join]. simpl. by rewrite <- IH.
  - destruct (Text.split sep s) as [|seg segs] eqn:E.
    + by apply split_nonempty in E.
    + rewrite <- IH. destruct segs; reflexivity.
Qed.

Lemma split_segments_clean sep s :
  Forall (λ seg, Text.contains sep seg = false) (Text.split sep s).
Proof.
  induction s as [|c s IH]; [by repeat constructor|]. simpl.
  destruct (Ascii.eqb c sep) eqn:Hc.
  - by constructor.
  - destruct (Text.split sep s) as [|seg segs] eqn:E.
    + repeat constructor. simpl. by rewrite Hc.
    + apply Forall_cons in IH as [Hseg Hsegs].
      constructor; [|done]. simpl. by rewrite Hc.
Qed.

Lemma last_segment_cons sep c s :
  Text.contains sep s = true →
  Text.last_segment sep (String c s) = Text.last_segment sep s.
Proof.
  intros Hs. unfold Text.last_segment. simpl.
  pose proof (split_length sep s Hs) as Hlen.
  destruct (Text.split sep s) as [|seg [|seg' segs]]; simpl in Hlen; try lia.
  by destruct (Ascii.eqb c sep).
Qed.

Lemma contains_append sep p t :
  Text.contains sep (String.append p (String sep t)) = true.
Proof.
  induction p as [|c p IH]; simpl.
  - by rewrite Ascii.eqb_refl.
  - rewrite IH. apply orb_true_r.
Qed.

(** The final segment of [p ++ sep ++ t] is [t] when [t] is free of the
    separator. *)
Lemma last_segment_append sep p t :
  Text.contains sep t = false →
  Text.last_segment sep (String.append p (String sep t)) = t.
Proof.
  intros Ht. induction p as [|c p IH].
  - unfold Text.last_segment. simpl.
    by rewrite Ascii.eqb_refl, (split_no_sep _ _ Ht).
  - change (String.append (String c p) (String sep t))
      with (String c (String.append p (String sep t))).
    rewrite last_segment_cons by apply contains_append. exact IH.
Qed.

Lemma digit_of_char d :
  0 <= d < 10 → Text.digit_of (Decimal.digit_char d) = Some d.
Proof.
  intros Hd.
  assert (d = 0 ∨ d = 1 ∨ d = 2 ∨ d = 3 ∨ d = 4 ∨ d = 5 ∨ d = 6 ∨ d = 7
          ∨ d = 8 ∨ d = 9) as Hcases by lia.
  repeat (destruct Hcases as [->|Hcases]; [reflexivity|]).
  by subst.
Qed.

Lemma digits_value_app a l1 l2 :
  Text.digits_value a (l1 ++ l2)
  = match Text.digits_value a l1 with
    | Some v => Text.digits_value v l2
    | None => None
    end.
Proof.
  revert a. induction l1 as [|c l1 IH]; intros a; simpl; [done|].
  destruct (Text.digit_of c); [apply IH|done].
Qed.

Lemma digits_value_digits fuel n :
  0 <= n < 2 ^ Z.of_nat fuel →
  Text.digits_value 0 (Decimal.digits fuel n) = Some n.
Proof.
  revert n. induction fuel as [|fuel IH]; intros n Hn.
  - simpl in *. f_equal; lia.
  - cbn [Decimal.digits]. destruct (n <? 10) eqn:Hlt.
    + apply Z.ltb_lt in Hlt. simpl.
      rewrite digit_of_char by lia. f_equal; lia.
    + apply Z.ltb_ge in Hlt.
      rewrite digits_value_app, IH.
      * simpl. rewrite digit_of_char by (apply Z.mod_pos_bound; lia).
        pose proof (Z.div_mod n 10 ltac:(lia)). f_equal; lia.
      * rewrite Nat2Z.inj_succ, Z.pow_succ_r in Hn by lia.
        split; [apply Z.div_pos; lia|].
        apply Z.div_lt_upper_bound; lia.
Qed.

Lemma digits_all_digits fuel n :
  0 <= n →
  Forall (λ c, is_Some (Text.digit_of c)) (Decimal.digits fuel n).
Proof.
  revert n. induction fuel as [|fuel IH]; intros n Hn; [constructor|].
  cbn [Decimal.digits]. destruct (n <? 10) eqn:Hlt.
  - apply Z.ltb_lt in Hlt. repeat constructor.
    rewrite digit_of_char by lia. by eexists.
  - apply Forall_app. split; [apply IH, Z.div_pos; lia|].
    repeat constructor.
    rewrite digit_of_char by (apply Z.mod_pos_bound; lia). by eexists.
Qed.

Lemma digits_of_nonempty n : Decimal.digits_of n ≠ [].
Proof.
  unfold Decimal.digits_of. cbn [Decimal.digits].
  destruct (n <? 10); [done|]. by destruct (Decimal.digits _ _).
Qed.

Lemma digits_of_value n :
  0 <= n → Text.digits_value 0 (Decimal.digits_of n) = Some n.
Proof.
  intros Hn. apply digits_value_digits.
  destruct (Z.eq_dec n 0) as [->|Hne]; [simpl; lia|].
  split; [done|]. rewrite Nat2Z.inj_succ, Z2Nat.id by apply Z.log2_nonneg.
  apply Z.log2_spec. lia.
Qed.

Lemma lstrip_solid c cs :
  Text.is_space c = false → Text.lstrip (c :: cs) = c :: cs.
Proof. intros H. simpl. by rewrite H. Qed.

Lemma strip_solid c cs :
  Text.is_space c = false →
  Forall (λ c, is_Some (Text.digit_of c)) cs → cs ≠ [] →
  Text.strip (c :: cs) = c :: cs.
Proof.
  intros Hc Hall Hne. unfold Text.strip. rewrite lstrip_solid by done.
  destruct (exists_last Hne) as (cs' & x & ->).
  apply Forall_app in Hall as [_ Hx]. apply Forall_cons in Hx as [Hx _].
  assert (Hrev : rev (c :: cs' ++ [x]) = x :: rev (c :: cs')).
  { change (c :: cs' ++ [x]) with ((c :: cs') ++ [x]).
    by rewrite rev_app_distr. }
  rewrite Hrev. rewrite lstrip_solid by (by apply digit_not_space).
  by rewrite <- Hrev, rev_involutive.
Qed.

Lemma list_ascii_of_string_of_list cs :
  list_ascii_of_string (string_of_list_ascii cs) = cs.
Proof. apply list_ascii_of_string_of_list_ascii. Qed.

Lemma py_int_digit_string cs :
  cs ≠ [] → Forall (λ c, is_Some (Text.digit_of c)) cs →
  Text.py_int (string_of_list_ascii cs) = Text.digits_value 0 cs.
Proof.
  intros Hne Hall. unfold Text.py_int.
  rewrite list_ascii_of_string_of_list, strip_digits by done.
  destruct cs as [|c cs]; [done|].
  assert (Hc : is_Some (Text.digit_of c)) by (by inversion Hall).
  destruct (digit_not_sign c Hc) as [Hplus Hminus].
  rewrite <- (unsigned_value_digits (c :: cs)) by done.
  destruct c as [b0 b1 b2 b3 b4 b5 b6 b7].
  destruct b0, b1, b2, b3, b4, b5, b6, b7; try reflexivity; done.
Qed.

(** [int(str(n), 10) == n] for every integer, so [str] never maps two
    integers to the same text. *)
Lemma py_int_py_str (n m : Z) :
  Text.py_int (Decimal.py_str n) = Some n
  ∧ (Decimal.py_str n = Decimal.py_str m → n = m).
Proof.
  assert (Hrt : ∀ k, Text.py_int (Decimal.py_str k) = Some k).
  { intros k. unfold Decimal.py_str. destruct (k <? 0) eqn:Hneg.
    - apply Z.ltb_lt in Hneg.
      pose proof (digits_all_digits (S (Z.to_nat (Z.log2 (- k)))) (- k)
                    ltac:(lia)) as Hall.
      fold (Decimal.digits_of (- k)) in Hall.
      unfold Text.py_int. cbn [list_ascii_of_string].
      rewrite list_ascii_of_string_of_list.
      rewrite strip_solid; [|done|done|apply digits_of_nonempty].
      rewrite unsigned_value_digits by (done || apply digits_of_nonempty).
      rewrite digits_of_value by lia. simpl. f_equal. lia.
    - apply Z.ltb_ge in Hneg.
      rewrite py_int_digit_string.
      + by apply digits_of_value.
      + apply digits_of_nonempty.
      + by apply digits_all_digits. }
  split; [apply Hrt|].
  intros Heq. pose proof (Hrt n) as Hn. rewrite Heq, Hrt in Hn. congruence.
Qed.

Lemma py_str_no_hyphen n :
  0 <= n → Text.contains "-" (Decimal.py_str n) = false.
Proof.
  intros Hn. unfold Decimal.py_str.
  replace (n <? 0) with false by (symmetry; apply Z.ltb_ge; lia).
  pose proof (digits_all_digits (S (Z.to_nat (Z.log2 n))) n Hn) as Hall.
  fold (Decimal.digits_of n) in Hall.
  induction Hall as [|c cs Hc _ IH]; [done|]. simpl.
  rewrite IH, orb_false_r.
  destruct (digit_not_sign c Hc) as [_ Hminus].
  destruct (Ascii.eqb c "-") eqn:E; [|done].
  by apply Ascii.eqb_eq in E.
Qed.

(** X6: a device identifier that ends in a hyphen followed by the decimal
    text of an address [n >= 0] gives that address back, whatever comes
    before the hyphen; [datacb] then queues the command under it when
    [n] is not 0. *)
Theorem device_id_round_trip
    (prefix : string) (n : Z) (message litres : jval) (w : World) :
  0 <= n →
  get_device_Hex
    (JStr (String.append prefix (String "-" (Decimal.py_str n)))) w
  = Ret (Some n) w
  ∧ (n ≠ 0 →
     datacb
       (Object message litres
          (JStr (String.append prefix (String "-" (Decimal.py_str n))))) w
     = Ret tt
         (set_queue
            (CMD_QUEUE w
             ++ [mkCommand message n litres
                   (JStr (String.append prefix
                            (String "-" (Decimal.py_str n))))])
            w)).
Proof.
  intros Hn.
  assert (Hseg : Text.last_segment "-"
                   (String.append prefix (String "-" (Decimal.py_str n)))
                 = Decimal.py_str n)
    by (by apply last_segment_append, py_str_no_hyphen).
  split.
  - unfold get_device_Hex. rewrite contains_append, Hseg.
    by rewrite (proj1 (py_int_py_str n n)).
  - intros Hne. rewrite datacb_string, contains_append, Hseg.
    rewrite (proj1 (py_int_py_str n n)).
    by apply Z.eqb_neq in Hne as ->.
Qed.

Lemma device_id_round_trip_witness :
  get_device_Hex
    (JStr (String.append "FQX-SM" (String "-" (Decimal.py_str 100011))))
    (bench [] ∅)
  = Ret (Some 100011) (bench [] ∅).
Proof.
  apply (proj1 (device_id_round_trip "FQX-SM" 100011 JNull JNull
                  (bench [] ∅) ltac:(lia))).
Defined.

(** ** The target store, file by file *)

Lemma list_ascii_of_append a b :
  list_ascii_of_string (String.append a b)
  = list_ascii_of_string a ++ list_ascii_of_string b.
Proof. induction a as [|c a IH]; [done|]. simpl. by rewrite IH. Qed.

Lemma list_ascii_of_string_inj a b :
  list_ascii_of_string a = list_ascii_of_string b → a = b.
Proof.
  intros H. apply (f_equal string_of_list_ascii) in H.
  by rewrite !string_of_list_ascii_of_string in H.
Qed.

Lemma append_inv_head p a b : String.append p a = String.append p b → a = b.
Proof. induction p as [|c p IH]; [done|]. simpl. intros [= H]. auto. Qed.

Lemma append_inv_tail a b s : String.append a s = String.append b s → a = b.
Proof.
  intros H. apply (f_equal list_ascii_of_string) in H.
  rewrite !list_ascii_of_append in H. apply app_inv_tail in H.
  by apply list_ascii_of_string_inj.
Qed.

Lemma filename_inj a b : Flash.filename a = Flash.filename b → a = b.
Proof.
  unfold Flash.filename. intros H.
  do 2 apply append_inv_head in H. apply append_inv_tail in H.
  by apply (proj2 (py_int_py_str a b)).
Qed.

Lemma flash_load_save_same a v fs :
  Flash.load_target_reading a (Flash.save_target_reading Flash.NoFault a v fs)
  = Some v.
Proof.
  unfold Flash.load_target_reading, Flash.save_target_reading.
  cbn [Flash.files]. rewrite lookup_insert_eq.
  by rewrite lookup_singleton_eq.
Qed.

Lemma flash_load_save_other fault a b v fs :
  a ≠ b →
  Flash.load_target_reading b (Flash.save_target_reading fault a v fs)
  = Flash.load_target_reading b fs.
Proof.
  intros Hne.
  assert (Hfile : Flash.filename a ≠ Flash.filename b)
    by (intros H; by apply filename_inj in H).
  unfold Flash.load_target_reading, Flash.save_target_reading.
  destruct fault; cbn [Flash.files]; by rewrite ?lookup_insert_ne.
Qed.

(** X7: on the files, a successful save is read back by a load of the
    same address and replaces whatever an earlier save left; no save,
    successful or not, changes what a load of another address returns; a
    save that fails before writing changes nothing, and one that fails
    while dumping leaves the address without a readable target. *)
Theorem flash_store_round_trip
    (fault : Flash.Fault) (a b v v' : Z) (fs : Flash.FS) :
  Flash.load_target_reading a (Flash.save_target_reading Flash.NoFault a v fs)
  = Some v
  ∧ (a ≠ b →
     Flash.load_target_reading b (Flash.save_target_reading fault a v fs)
     = Flash.load_target_reading b fs)
  ∧ Flash.save_target_reading Flash.NoFault a v'
      (Flash.save_target_reading fault a v fs)
    = Flash.save_target_reading Flash.NoFault a v' fs
  ∧ Flash.load_target_reading a
      (Flash.save_target_reading Flash.FailsEarly a v fs)
    = Flash.load_target_reading a fs
  ∧ Flash.load_target_reading a
      (Flash.save_target_reading Flash.FailsInDump a v fs)
    = None.
Proof.
  split; [|split; [|split; [|split]]].
  - apply flash_load_save_same.
  - apply flash_load_save_other.
  - unfold Flash.save_target_reading.
    destruct fault; cbn [Flash.files]; by rewrite ?insert_insert_eq.
  - done.
  - unfold Flash.load_target_reading, Flash.save_target_reading.
    cbn [Flash.files]. by rewrite lookup_insert_eq.
Qed.

Lemma flash_store_round_trip_witness :
  let fs := Flash.mkFS false ∅ in
  Flash.load_target_reading 7
    (Flash.save_target_reading Flash.FailsInDump 6 170 fs)
  = Flash.load_target_reading 7 fs.
Proof.
  intros fs.
  apply (proj1 (proj2 (flash_store_round_trip Flash.FailsInDump 6 7 170 0 fs))).
  lia.
Defined.

(** X8: the map from addresses to targets used for the controller is what
    the files stand for: if a file system represents the store of a
    world, then the load of the controller returns what the load on the
    files returns, and after a save on both sides, successful or meeting
    the same fault, the file system represents the new store. *)
Theorem flash_refines_store
    (address value : Z) (fs : Flash.FS) (w : World) :
  Flash.represents fs (store w) →
  load_target_reading address w
  = Ret (Flash.load_target_reading address fs) w
  ∧ ∃ w',
      save_target_reading address value w = Ret tt w'
      ∧ Flash.represents
          (Flash.save_target_reading (flash w (writes w)) address value fs)
          (store w').
Proof.
  intros Hrep. split.
  - unfold load_target_reading. by rewrite Hrep.
  - exists (saved address value w). split; [done|].
    intros b. fields.
    destruct (decide (address = b)) as [<-|Hne].
    + destruct (flash w (writes w)); cbn [written].
      * rewrite lookup_insert_eq. apply flash_load_save_same.
      * apply Hrep.
      * rewrite lookup_delete_eq.
        unfold Flash.load_target_reading, Flash.save_target_reading.
        cbn [Flash.files]. by rewrite lookup_insert_eq.
    + rewrite flash_load_save_other by done. rewrite Hrep.
      destruct (flash w (writes w)); cbn [written];
        by rewrite ?lookup_insert_ne, ?lookup_delete_ne.
Qed.

Lemma flash_represents_empty : Flash.represents (Flash.mkFS false ∅) ∅.
Proof. intros a. reflexivity. Qed.

Lemma flash_refines_store_witness :
  load_target_reading 6 (bench [] ∅)
  = Ret (Flash.load_target_reading 6 (Flash.mkFS false ∅)) (bench [] ∅)
  ∧ ∃ w',
      save_target_reading 6 170 (bench [] ∅) = Ret tt w'
      ∧ Flash.represents
          (Flash.save_target_reading Flash.NoFault 6 170 (Flash.mkFS false ∅))
          (store w').
Proof.
  apply (flash_refines_store 6 170 (Flash.mkFS false ∅) (bench [] ∅)).
  apply flash_represents_empty.
Defined.

(** ** Version comparison *)








(** ** More on the dispense controller *)

(** X10: for a request of a whole number of litres (a Python [int], the
    only amounts represented here): a [Completed] batch never delivers
    less than was asked for, and its final reading is the start reading
    plus the dispensed amount; a batch that times out on a positive
    request reports less than was asked for; a batch whose start reading
    fails reports 0 after exactly five read requests and nothing else. *)
Theorem dispense_outcome_bounds
    (fuel : nat) (address liters : Z) (w w' : World) (r : DispenseResult) :
  dispense_batch fuel address liters w = Ret r w' →
  match r with
  | Completed d final =>
      liters <= d
      ∧ ∃ start w1,
          get_valid_volume address 5 w = Ret (Some start) w1
          ∧ final = start + d
  | Failed meter_timeout d => 0 < liters → d < liters
  | Failed initial_read_error d =>
      d = 0
      ∧ w' = polled address 5 w
      ∧ since w w' = replicate 5 (Tx (read_request address))
  end.
Proof.
  intros Hrun.
  apply dispense_batch_inv in Hrun
    as [(-> & _ & ->)|(start & k & n & Hstart & _ & Hr)].
  - split; [done|]. split; [done|].
    apply since_app, polled_trace.
  - destruct r as [d final|reason d].
    + destruct Hr as (_ & -> & Hge). split; [lia|].
      exists start, (polled address k w). split; [done|lia].
    + destruct Hr as (_ & -> & Hd). intros Hl. specialize (Hd Hl). lia.
Qed.

Lemma dispense_outcome_bounds_witness :
  let w := bench [meter_reply 6 150; write_ack 6; meter_reply 6 160;
                  meter_reply 6 175; write_ack 6] ∅ in
  20 <= 25
  ∧ ∃ start w1,
      get_valid_volume 6 5 w = Ret (Some start) w1 ∧ 175 = start + 25.
Proof.
  intros w.
  apply (dispense_outcome_bounds 2 6 20 w
           (saved 6 175
              (exchanged (close_command 6)
                 (polled 6 2
                    (exchanged (open_command 6)
                       (saved 6 170 (polled 6 1 w))))))
           (Completed 25 175)).
  vm_compute. reflexivity.
Defined.

Lemma monitoring_bus_fault fuel address start target last errs w :
  bus w (cursor w) = BusFault →
  monitoring (S fuel) address start target last errs w = Raise (advance w).
Proof.
  intros Hbus. cbn [monitoring]. unfold bind at 1.
  by rewrite read_cumulative_flow_run, Hbus.
Qed.

(** X11: an exception that escapes a monitoring read ([uart.write]
    raising) leaves [dispense_batch] through no handler: the call raises
    after the target was saved and the open command sent, and no close
    command follows; the store stays as the save of the target left
    it. *)
Theorem exception_leaves_valve_open
    (address liters start : Z) (n : nat) (w w1 : World) :
  get_valid_volume address 5 w = Ret (Some start) w1 →
  line_ok (bus w (cursor w1)) = true →
  (∀ i, (i < n)%nat → line_ok (bus w (S (cursor w1) + i)) = true) →
  (∀ i v, (i < n)%nat →
          read_at address w (S (cursor w1)) i = Some v → v < start + liters) →
  (∀ m, (1 <= m <= n)%nat →
        error_counter (take m (readings address w (S (cursor w1)) n)) < 5) →
  bus w (S (cursor w1) + n) = BusFault →
  ∃ w',
    (∀ fuel, (n < fuel)%nat →
       dispense_batch fuel address liters w = Raise w')
    ∧ actions (since w w')
      = [Persist address (start + liters); OpenValve (Codec.to_byte address)]
    ∧ store w'
      = written (flash w (writes w)) address (start + liters) (store w).
Proof.
  intros Hstart Hopen Hok Hlow Hcnt Hfault.
  set (k := S (cursor w1)) in *.
  set (w2 := exchanged (open_command address)
               (saved address (start + liters) w1)).
  pose proof Hstart as Hw1.
  apply get_valid_volume_world in Hw1 as (j & _ & Hw1).
  assert (Hbus : bus w2 = bus w) by (subst w2 w1; fields; apply polled_bus).
  assert (Hcur : cursor w2 = k) by done.
  assert (Hrs : readings address w2 (cursor w2) n = readings address w k n).
  { unfold readings, read_at. by rewrite Hbus, Hcur. }
  exists (advance (polled address n w2)).
  split; [|split].
  - intros fuel Hfuel.
    rewrite (dispense_batch_started _ _ _ _ _ _ Hstart Hopen). fold w2.
    replace fuel with (n + S (fuel - S n))%nat by lia.
    rewrite monitoring_skip.
    + apply monitoring_bus_fault.
      by rewrite polled_bus, polled_cursor, Hbus, Hcur.
    + intros i Hi. rewrite Hbus, Hcur. by apply Hok.
    + intros i v Hi Hv. unfold read_at in Hv. rewrite Hbus, Hcur in Hv.
      by apply (Hlow i v).
    + intros m Hm. rewrite Hrs. apply (Hcnt m Hm).
  - erewrite since_app; [|subst w2 w1; trace_norm; reflexivity].
    by actions_norm.
  - subst w2 w1. by store_norm.
Qed.

Lemma exception_leaves_valve_open_witness :
  let w := bench [meter_reply 6 150; write_ack 6; meter_reply 6 160;
                  BusFault] ∅ in
  ∃ w',
    (∀ fuel, (1 < fuel)%nat → dispense_batch fuel 6 20 w = Raise w')
    ∧ actions (since w w')
      = [Persist 6 (150 + 20); OpenValve (Codec.to_byte 6)]
    ∧ store w' = written (flash w (writes w)) 6 (150 + 20) (store w).
Proof.
  intros w.
  assert (Hrs : readings 6 w 2 1 = [Some 160]) by (vm_compute; reflexivity).
  apply (exception_leaves_valve_open 6 20 150 1 w (polled 6 1 w)).
  - vm_compute; reflexivity.
  - vm_compute; reflexivity.
  - intros i Hi. assert (i = 0%nat) as -> by lia. vm_compute; reflexivity.
  - intros i v Hi Hv. assert (i = 0%nat) as -> by lia.
    assert (Hv' : Some 160 = Some v) by (rewrite <- Hv; vm_compute; reflexivity).
    injection Hv' as <-. lia.
  - intros m Hm. assert (m = 1%nat) as -> by lia.
    change (cursor (polled 6 1 w)) with 1%nat. rewrite Hrs.
    vm_compute; reflexivity.
  - vm_compute; reflexivity.
Defined.

(** X12: after a batch that timed out, the store is what the save of
    the target [start + liters] left.  If that save was written, the
    next recovery of the address, reading [c], resumes with exactly
    [start + liters - c] when that is positive (it is [liters - d] when
    the meter still shows the last reading of the failed run) and does
    nothing when the meter has reached the target meanwhile.  If the
    save failed and left no readable target (it failed while dumping, or
    it failed before writing and there was none), the recovery takes the
    reading [c] as the new target and dispenses nothing: the remainder
    of the batch is forgotten. *)
Theorem interrupted_batch_resumes
    (fuel fuel' : nat) (address liters d c : Z) (w w1 w2 : World) :
  dispense_batch fuel address liters w = Ret (Failed meter_timeout d) w1 →
  get_valid_volume address 5 w1 = Ret (Some c) w2 →
  ∃ start w0,
    get_valid_volume address 5 w = Ret (Some start) w0
    ∧ store w1 = written (flash w (writes w)) address (start + liters) (store w)
    ∧ (flash w (writes w) = Flash.NoFault →
       (c < start + liters →
        recover_address fuel' address w1
        = (_ <- dispense_batch fuel' address (start + liters - c) ;; ret tt)
            (emit (Published (resuming_batch (start + liters - c))) w2))
       ∧ (c = start + d → 0 < liters →
          recover_address fuel' address w1
          = (_ <- dispense_batch fuel' address (liters - d) ;; ret tt)
              (emit (Published (resuming_batch (liters - d))) w2))
       ∧ (start + liters <= c →
          recover_address fuel' address w1 = Ret tt w2))
    ∧ (flash w (writes w) = Flash.FailsInDump
       ∨ (flash w (writes w) = Flash.FailsEarly ∧ store w !! address = None) →
       recover_address fuel' address w1 = Ret tt (saved address c w2)).
Proof.
  intros Hrun Hread.
  apply dispense_batch_inv in Hrun
    as [([=] & _)|(start & k & n & Hstart & _ & -> & _ & Hd)].
  exists start, (polled address k w). split; [done|].
  assert (Hstore : store
            (exchanged (close_command address)
               (polled address (S n)
                  (exchanged (open_command address)
                     (saved address (start + liters) (polled address k w)))))
            = written (flash w (writes w)) address (start + liters) (store w))
    by (by store_norm).
  split; [done|]. split.
  - intros Hok. rewrite Hok in Hstore. cbn [written] in Hstore.
    assert (Hresume : ∀ x, c < start + liters → x = start + liters - c →
      recover_address fuel' address
        (exchanged (close_command address)
           (polled address (S n)
              (exchanged (open_command address)
                 (saved address (start + liters) (polled address k w)))))
      = (_ <- dispense_batch fuel' address x ;; ret tt)
          (emit (Published (resuming_batch x)) w2)).
    { intros x Hlt ->. rewrite recover_address_unfold, Hread, Hstore.
      rewrite lookup_insert_eq.
      by replace (c <? start + liters) with true
        by (symmetry; apply Z.ltb_lt; lia). }
    split; [|split].
    + intros Hlt. by apply Hresume.
    + intros -> Hl. apply Hresume; [|lia]. specialize (Hd Hl). lia.
    + intros Hge. rewrite recover_address_unfold, Hread, Hstore.
      rewrite lookup_insert_eq.
      by replace (c <? start + liters) with false
        by (symmetry; apply Z.ltb_ge; lia).
  - intros Hbad. rewrite recover_address_unfold, Hread, Hstore.
    destruct Hbad as [->|[-> Hnone]]; cbn [written].
    + by rewrite lookup_delete_eq.
    + by rewrite Hnone.
Qed.

Lemma interrupted_batch_resumes_witness :
  let w := bench [meter_reply 6 150; write_ack 6; meter_reply 6 160;
                  Arrived []; Arrived []; Arrived []; Arrived []; Arrived [];
                  write_ack 6; meter_reply 6 160] ∅ in
  let w1 := exchanged (close_command 6)
              (polled 6 6
                 (exchanged (open_command 6) (saved 6 170 (polled 6 1 w)))) in
  let worn := wear [Flash.FailsInDump] w in
  let worn1 := exchanged (close_command 6)
                 (polled 6 6
                    (exchanged (open_command 6)
                       (saved 6 170 (polled 6 1 worn)))) in
  recover_address 3 6 w1
  = (_ <- dispense_batch 3 6 (20 - 10) ;; ret tt)
      (emit (Published (resuming_batch (20 - 10))) (polled 6 1 w1))
  ∧ recover_address 3 6 worn1 = Ret tt (saved 6 160 (polled 6 1 worn1)).
Proof.
  intros w w1 worn worn1. split.
  - destruct (interrupted_batch_resumes 6 3 6 20 10 160 w w1 (polled 6 1 w1)
                ltac:(vm_compute; reflexivity) ltac:(vm_compute; reflexivity))
      as (start & w0 & Hstart & _ & Hgood & _).
    assert (Hs : start = 150).
    { assert (H : get_valid_volume 6 5 w = Ret (Some 150) (polled 6 1 w))
        by (vm_compute; reflexivity).
      rewrite H in Hstart. by injection Hstart as <-. }
    subst start.
    apply (proj1 (proj2 (Hgood eq_refl))); [reflexivity|lia].
  - destruct (interrupted_batch_resumes 6 3 6 20 10 160 worn worn1
                (polled 6 1 worn1)
                ltac:(vm_compute; reflexivity) ltac:(vm_compute; reflexivity))
      as (start & w0 & _ & _ & _ & Hbad).
    apply Hbad. by left.
Defined.

(** X13: when recovery finds a target [t] above the live reading [c] and
    returns, it has run one dispense for [t - c], which started from its
    own start reading [start]; if that dispense completed it delivered
    at least [t - c] and the store is what the saves of
    [start + (t - c)] and then of the final reading left; if it timed
    out the store is what the save of the fresh target
    [start + (t - c)] left (that target itself, when the save was
    written); if its start reading failed the store is untouched and
    still holds [t]. *)
Theorem recovery_settles_target
    (fuel : nat) (addr t c : Z) (w w1 w' : World) :
  store w !! addr = Some t →
  get_valid_volume addr 5 w = Ret (Some c) w1 →
  c < t →
  recover_address fuel addr w = Ret tt w' →
  ∃ r,
    dispense_batch fuel addr (t - c)
      (emit (Published (resuming_batch (t - c))) w1) = Ret r w'
    ∧ match r with
      | Completed d final =>
          ∃ start w2,
            get_valid_volume addr 5
              (emit (Published (resuming_batch (t - c))) w1)
            = Ret (Some start) w2
            ∧ d = final - start
            ∧ t - c <= d
            ∧ store w'
              = written (flash w (S (writes w))) addr final
                  (written (flash w (writes w)) addr (start + (t - c))
                     (store w))
      | Failed meter_timeout d =>
          ∃ start w2,
            get_valid_volume addr 5
              (emit (Published (resuming_batch (t - c))) w1)
            = Ret (Some start) w2
            ∧ store w'
              = written (flash w (writes w)) addr (start + (t - c)) (store w)
            ∧ (flash w (writes w) = Flash.NoFault →
               store w' !! addr = Some (start + (t - c)))
      | Failed initial_read_error d =>
          store w' = store w ∧ store w' !! addr = Some t
      end.
Proof.
  intros Hload Hread Hlt. rewrite recover_address_unfold, Hread, Hload.
  replace (c <? t) with true by (symmetry; apply Z.ltb_lt; lia).
  unfold bind, ret.
  destruct (dispense_batch fuel addr (t - c)
              (emit (Published (resuming_batch (t - c))) w1))
    as [r w2| |] eqn:Hrun; [|done..].
  intros [= <-]. exists r. split; [done|].
  apply get_valid_volume_world in Hread as (j & _ & ->).
  apply dispense_batch_inv in Hrun
    as [(-> & _ & ->)|(start & k & n & Hstart & _ & Hr)].
  - assert (Hs : store
             (polled addr 5
                (emit (Published (resuming_batch (t - c))) (polled addr j w)))
             = store w) by (by store_norm).
    split; [done|]. by rewrite Hs.
  - destruct r as [d final|reason d].
    + destruct Hr as (-> & -> & Hge).
      eexists start, _. split; [exact Hstart|]. split; [done|].
      split; [lia|]. by store_norm.
    + destruct Hr as (-> & -> & _).
      eexists start, _. split; [exact Hstart|].
      assert (Hs : store
                (exchanged (close_command addr)
                   (polled addr (S n)
                      (exchanged (open_command addr)
                         (saved addr (start + (t - c))
                            (polled addr k
                               (emit (Published (resuming_batch (t - c)))
                                  (polled addr j w)))))))
              = written (flash w (writes w)) addr (start + (t - c)) (store w))
        by (by store_norm).
      split; [done|]. intros Hok. rewrite Hs, Hok. cbn [written].
      apply lookup_insert_eq.
Qed.

Lemma recovery_settles_target_witness :
  let w := bench [meter_reply 6 150; meter_reply 6 152; write_ack 6;
                  Arrived []; Arrived []; Arrived []; Arrived []; Arrived [];
                  write_ack 6] {[6 := 200]} in
  let w1 := polled 6 1 w in
  let w' := exchanged (close_command 6)
              (polled 6 5
                 (exchanged (open_command 6)
                    (saved 6 202
                       (polled 6 1
                          (emit (Published (resuming_batch 50)) w1))))) in
  recover_address 5 6 w = Ret tt w'
  ∧ store w' !! 6 = Some 202.
Proof.
  intros w w1 w'.
  assert (Hrun : recover_address 5 6 w = Ret tt w')
    by (vm_compute; reflexivity).
  split; [exact Hrun|].
  destruct (recovery_settles_target 5 6 200 150 w w1 w'
              ltac:(vm_compute; reflexivity) ltac:(vm_compute; reflexivity)
              ltac:(lia) Hrun) as (r & Hr & Hcase).
  assert (Hr' : dispense_batch 5 6 (200 - 150)
                  (emit (Published (resuming_batch (200 - 150))) w1)
                = Ret (Failed meter_timeout 0) w')
    by (vm_compute; reflexivity).
  rewrite Hr' in Hr. apply ret_value in Hr as <-.
  destruct Hcase as (start & w2 & Hstart & _ & Hok).
  assert (Hs : get_valid_volume 6 5
                 (emit (Published (resuming_batch (200 - 150))) w1)
               = Ret (Some 152)
                   (polled 6 1 (emit (Published (resuming_batch 50)) w1)))
    by (vm_compute; reflexivity).
  rewrite Hs in Hstart. apply ret_value in Hstart.
  assert (start = 152) as -> by congruence.
  apply Hok. reflexivity.
Defined.

(** ** The command path *)

Lemma process_command_queue_no_raise fuel :
  ∀ w w', process_command_queue fuel w ≠ Raise w'.
Proof.
  induction fuel as [|fuel IH]; intros w w'; cbn [process_command_queue];
    destruct (CMD_QUEUE w) as [|item rest]; try done.
  unfold bind at 1, try_except.
  destruct (process_item fuel item (emit (Dequeued item) (set_queue rest w)))
    as [[] w1|w1|w1]; [|unfold bind, sleep, ret; apply IH|done].
  unfold bind, sleep, ret. apply IH.
Qed.

(** An item that needs no dispense is dealt with at once, whatever the
    serial line does. *)
Lemma process_item_quick fuel item w :
  needs_dispense item = false →
  ∃ w', try_except (process_item fuel item) w = Ret tt w'
        ∧ CMD_QUEUE w' = CMD_QUEUE w.
Proof.
  intros Hnd.
  assert (Hq : ∀ r, try_except (process_item fuel item) w = r →
               ∀ w', r = Ret tt w' → CMD_QUEUE w' = CMD_QUEUE w).
  { intros r <- w' Hr.
    pose proof (Framed_try_except true _
                  (Framed_process_item true fuel item) w w') as HF.
    rewrite Hr in HF. destruct (HF eq_refl) as (_ & _ & _ & Hk). by apply Hk. }
  assert (Hex : ∃ w', try_except (process_item fuel item) w = Ret tt w').
  { unfold needs_dispense in Hnd. unfold try_except, process_item.
    cbv zeta.
    destruct (is_cmd (c_type item) "success").
    - destruct (c_litres item) as [|litres|s]; try (by eexists).
      cbn [andb] in Hnd. rewrite Hnd. by eexists.
    - destruct (is_cmd (c_type item) "valve_open").
      + unfold bind. rewrite open_valve_run.
        destruct (line_ok _); by eexists.
      + destruct (is_cmd (c_type item) "valve_close"); [|by eexists].
        unfold bind. rewrite close_valve_run.
        destruct (line_ok _); by eexists. }
  destruct Hex as [w' Hw']. exists w'. split; [done|]. by eapply Hq.
Qed.

Lemma process_command_queue_quick fuel :
  ∀ w,
    Forall (λ item, needs_dispense item = false) (CMD_QUEUE w) →
    (length (CMD_QUEUE w) <= fuel)%nat →
    ∃ w', process_command_queue fuel w = Ret tt w'.
Proof.
  induction fuel as [|fuel IH]; intros w Hall Hlen;
    cbn [process_command_queue];
    destruct (CMD_QUEUE w) as [|item rest] eqn:Hq; try (by eexists).
  - simpl in Hlen. lia.
  - apply Forall_cons in Hall as [Hitem Hrest].
    destruct (process_item_quick fuel item
                (emit (Dequeued item) (set_queue rest w)) Hitem)
      as (w1 & Hw1 & Hq1).
    unfold bind at 1. rewrite Hw1. unfold bind, sleep, ret.
    apply IH.
    + rewrite Hq1. done.
    + rewrite Hq1. simpl in *. lia.
Qed.

(** X14: the command loop absorbs every failure of an item: it never
    raises, and whenever it returns the queue is empty; a queue whose
    items need no dispense (valve commands, unknown kinds, requests
    whose litres are not a positive number) is always worked off, even
    when the serial line faults. *)
Theorem command_loop_absorbs_failures (fuel : nat) (w : World) :
  (∀ w', process_command_queue fuel w ≠ Raise w')
  ∧ (∀ w', process_command_queue fuel w = Ret tt w' → CMD_QUEUE w' = [])
  ∧ (Forall (λ item, needs_dispense item = false) (CMD_QUEUE w) →
     (length (CMD_QUEUE w) <= fuel)%nat →
     ∃ w', process_command_queue fuel w = Ret tt w' ∧ CMD_QUEUE w' = []).
Proof.
  split; [apply process_command_queue_no_raise|]. split.
  - apply process_command_queue_empties.
  - intros Hall Hlen.
    destruct (process_command_queue_quick fuel w Hall Hlen) as [w' Hw'].
    exists w'. split; [done|].
    by apply process_command_queue_empties in Hw'.
Qed.

Lemma command_loop_absorbs_failures_witness :
  let q := [mkCommand (JStr "valve_open") 6 JNull (JStr "FQX-6");
            mkCommand (JStr "success") 6 (JStr "ten") (JStr "FQX-6");
            mkCommand (JStr "reboot") 6 JNull (JStr "FQX-6")] in
  let w := set_queue q (bench [BusFault] ∅) in
  ∃ w', process_command_queue 3 w = Ret tt w' ∧ CMD_QUEUE w' = [].
Proof.
  intros q w.
  apply (proj2 (proj2 (command_loop_absorbs_failures 3 w))).
  - repeat constructor.
  - simpl. lia.
Defined.

Lemma reports_app tr1 tr2 : reports (tr1 ++ tr2) = reports tr1 ++ reports tr2.
Proof. apply omap_app. Qed.

Lemma reports_reads address n :
  reports (replicate n (Tx (read_request address))) = [].
Proof. induction n; [done|]. simpl. exact IHn. Qed.

Ltac reports_norm :=
  rewrite ?reports_app, ?reports_reads, ?app_nil_l, ?app_nil_r;
  cbn [reports omap app option_bind mbind].

(** A dispense publishes nothing itself. *)
Lemma dispense_batch_silent fuel address liters w r w' :
  dispense_batch fuel address liters w = Ret r w' →
  ∃ evs, trace w' = trace w ++ evs ∧ reports evs = [].
Proof.
  intros Hrun.
  apply dispense_batch_inv in Hrun
    as [(-> & _ & ->)|(start & k & n & _ & _ & Hr)].
  - eexists. split; [apply polled_trace|apply reports_reads].
  - destruct r as [d final|reason d].
    + destruct Hr as (-> & _ & _).
      eexists. split; [trace_norm; reflexivity|].
      rewrite !reports_app, !reports_reads. reflexivity.
    + destruct Hr as (-> & _ & _).
      eexists. split; [trace_norm; reflexivity|].
      rewrite !reports_app, !reports_reads. reflexivity.
Qed.

(** X15: a paid request ([success] with a positive integer amount) that
    is processed to the end publishes exactly two reports around the
    dispense: [dispense_started] with the amount before it, and after it
    the report of its outcome; a request for an amount that is not
    positive is dropped without any effect, and one whose amount is not
    a number raises before anything is done. *)
Theorem dispense_reports_bracket
    (fuel : nat) (item : Command) (w w' : World) :
  is_cmd (c_type item) "success" = true →
  (∀ litres, c_litres item = JInt litres → 0 < litres →
     process_item fuel item w = Ret tt w' →
     ∃ r w1,
       dispense_batch fuel (c_addr item) litres
         (emit (Published (dispense_started (c_device_id item) litres)) w)
       = Ret r w1
       ∧ reports (since w w')
         = [dispense_started (c_device_id item) litres;
            terminal_report (c_device_id item) r]
       ∧ List.last (trace w') (Ticked 0)
         = Published (terminal_report (c_device_id item) r))
  ∧ (∀ litres, c_litres item = JInt litres → litres <= 0 →
       process_item fuel item w = Ret tt w)
  ∧ (∀ s, c_litres item = JNull ∨ c_litres item = JStr s →
       process_item fuel item w = Raise w).
Proof.
  intros Hcmd. split; [|split].
  - intros litres Hl Hpos. unfold process_item. cbv zeta.
    rewrite Hcmd, Hl.
    replace (0 <? litres) with true by (symmetry; apply Z.ltb_lt; lia).
    unfold bind at 1. unfold mqttPublish at 1, modify.
    set (w0 := emit (Published (dispense_started (c_device_id item) litres)) w).
    unfold bind.
    destruct (dispense_batch fuel (c_addr item) litres w0)
      as [r w1| |] eqn:Hrun; [|done..].
    intros Hpub. exists r, w1. split; [done|].
    destruct (dispense_batch_silent _ _ _ _ _ _ Hrun) as (evs & He & Hnone).
    assert (Hw' : w' = emit (Published (terminal_report (c_device_id item) r))
                         w1).
    { destruct r; unfold mqttPublish, modify in Hpub; by injection Hpub. }
    subst w'. split.
    + erewrite since_app.
      2:{ fields. rewrite He. subst w0. fields.
          rewrite <- !app_assoc. reflexivity. }
      rewrite !reports_app, Hnone. reflexivity.
    + fields. apply last_last.
  - intros litres Hl Hneg. unfold process_item. cbv zeta.
    rewrite Hcmd, Hl.
    by replace (0 <? litres) with false by (symmetry; apply Z.ltb_ge; lia).
  - intros s Hl. unfold process_item. cbv zeta. rewrite Hcmd.
    by destruct Hl as [-> | ->].
Qed.

Lemma dispense_reports_bracket_witness :
  let item := mkCommand (JStr "success") 6 (JInt 20) (JStr "FQX-6") in
  let w := bench [meter_reply 6 150; write_ack 6; meter_reply 6 160;
                  meter_reply 6 175; write_ack 6] ∅ in
  (∃ w' r w1,
     process_item 2 item w = Ret tt w'
     ∧ dispense_batch 2 6 20
         (emit (Published (dispense_started (JStr "FQX-6") 20)) w)
       = Ret r w1
     ∧ reports (since w w')
       = [dispense_started (JStr "FQX-6") 20;
          terminal_report (JStr "FQX-6") r])
  ∧ process_item 2 (mkCommand (JStr "success") 6 (JInt 0) (JStr "FQX-6")) w
    = Ret tt w
  ∧ process_item 2 (mkCommand (JStr "success") 6 JNull (JStr "FQX-6")) w
    = Raise w.
Proof.
  intros item w. split; [|split].
  - assert (Hrun : ∃ w', process_item 2 item w = Ret tt w')
      by (eexists; vm_compute; reflexivity).
    destruct Hrun as [w' Hrun].
    destruct (proj1 (dispense_reports_bracket 2 item w w' eq_refl)
                20 eq_refl ltac:(lia) Hrun) as (r & w1 & H1 & H2 & _).
    exists w', r, w1. split; [exact Hrun|]. split; [exact H1|exact H2].
  - apply (proj1 (proj2 (dispense_reports_bracket 2
             (mkCommand (JStr "success") 6 (JInt 0) (JStr "FQX-6")) w w
             eq_refl)) 0 eq_refl).
    lia.
  - apply (proj2 (proj2 (dispense_reports_bracket 2
             (mkCommand (JStr "success") 6 JNull (JStr "FQX-6")) w w
             eq_refl)) EmptyString).
    by left.
Defined.

(** X16: the ingest callback never raises and never touches the serial
    line, the store, the trace or the liveness timestamp; it either
    leaves the queue as it is or appends one command, whose address is
    not 0 and whose kind, amount and device identifier are those of the
    message. *)
Theorem ingest_touches_only_queue (msg : Inbound) (w : World) :
  ∃ w',
    datacb msg w = Ret tt w'
    ∧ bus w' = bus w
    ∧ cursor w' = cursor w
    ∧ store w' = store w
    ∧ trace w' = trace w
    ∧ last_alive_tick w' = last_alive_tick w
    ∧ (CMD_QUEUE w' = CMD_QUEUE w
       ∨ ∃ message litres deviceID address,
           msg = Object message litres deviceID
           ∧ address ≠ 0
           ∧ CMD_QUEUE w'
             = CMD_QUEUE w ++ [mkCommand message address litres deviceID]).
Proof.
  destruct msg as [|message litres deviceID].
  - exists w. repeat split; by left.
  - destruct deviceID as [|n|s]; try (exists w; repeat split; by left).
    rewrite datacb_string.
    destruct (Text.contains "-" s); [|exists w; repeat split; by left].
    destruct (Text.py_int (Text.last_segment "-" s)) as [n|];
      [|exists w; repeat split; by left].
    destruct (n =? 0) eqn:Hn; [exists w; repeat split; by left|].
    apply Z.eqb_neq in Hn.
    eexists. split; [reflexivity|]. repeat split.
    right. by exists message, litres, (JStr s), n.
Qed.

(** ** The idle poll and the valve commands *)

Lemma passive_refl addresses w : passive addresses w w.
Proof.
  split; [done|]. split; [done|]. exists [].
  by rewrite app_nil_r.
Qed.

Lemma passive_trans addresses w1 w2 w3 :
  passive addresses w1 w2 → passive addresses w2 w3 →
  passive addresses w1 w3.
Proof.
  intros (Hs1 & Hq1 & evs1 & He1 & Ha1 & Hr1)
         (Hs2 & Hq2 & evs2 & He2 & Ha2 & Hr2).
  split; [congruence|]. split; [congruence|].
  exists (evs1 ++ evs2). split; [by rewrite He2, He1, app_assoc|].
  split; [by rewrite actions_app, Ha1, Ha2|].
  rewrite reports_app. apply Forall_app. split; [done|].
  by rewrite <- Hs1.
Qed.

Lemma passive_weaken addresses addresses' w w' :
  (∀ a, a ∈ addresses → a ∈ addresses') →
  passive addresses w w' → passive addresses' w w'.
Proof.
  intros Hsub (Hs & Hq & evs & He & Ha & Hr).
  split; [done|]. split; [done|]. exists evs. split; [done|].
  split; [done|]. eapply Forall_impl; [exact Hr|].
  intros r (a & c & st & -> & Ha' & Hst).
  exists a, c, st. auto.
Qed.

(** Sequencing, with the continuation looked at where it starts. *)
Lemma keeps_bind_at {A B} (R : World → World → Prop)
    (m : M A) (k : A → M B) w :
  (∀ w1 w2 w3, R w1 w2 → R w2 w3 → R w1 w3) →
  (∀ w', final_world (m w) = Some w' → R w w') →
  (∀ a w1, m w = Ret a w1 →
           ∀ w', final_world (k a w1) = Some w' → R w1 w') →
  ∀ w', final_world (bind m k w) = Some w' → R w w'.
Proof.
  intros Htrans Hm Hk w'. unfold bind.
  destruct (m w) as [a w1|w1|] eqn:E; [| |done].
  - intros H. eapply Htrans; [by apply Hm|]. by eapply Hk.
  - intros [= <-]. by apply Hm.
Qed.

Lemma read_passive addresses address w w' :
  final_world (read_cumulative_flow address w) = Some w' →
  passive addresses w w'.
Proof.
  rewrite read_cumulative_flow_run.
  destruct (bus w (cursor w)); intros [= <-].
  - split; [done|]. split; [done|].
    exists []. fields. rewrite app_nil_r. repeat split; constructor.
  - split; [done|]. split; [done|].
    exists [Tx (read_request address)]. repeat split; constructor.
  - split; [done|]. split; [done|].
    exists [Tx (read_request address)]. repeat split; constructor.
Qed.

Lemma get_valid_volume_passive addresses address retries :
  Keeps (passive addresses) (get_valid_volume address retries).
Proof.
  induction retries as [|n IH]; intros w w'; cbn [get_valid_volume].
  - intros [= <-]. apply passive_refl.
  - apply keeps_bind_at; [apply passive_trans|apply read_passive|].
    intros [v|] w1 _ w2.
    + intros [= <-]. apply passive_refl.
    + unfold bind, sleep, ret. apply IH.
Qed.

Lemma idle_status_ok addresses address cumulative (targets : gmap Z Z) :
  address ∈ addresses →
  idle_report_ok addresses targets
    (meter_report address cumulative
       match targets !! address with
       | Some t =>
           if negb (t =? 0) && (cumulative <? t)
           then interrupted_batch_detected
           else idle
       | None => idle
       end).
Proof.
  intros Hin. eexists _, _, _. split; [done|]. split; [done|].
  destruct (targets !! address) as [t|].
  - destruct (t =? 0) eqn:Ht, (cumulative <? t) eqn:Hc; cbn [negb andb];
      rewrite ?Z.eqb_eq, ?Z.eqb_neq, ?Z.ltb_lt, ?Z.ltb_ge in *.
    + split; [done|]. intros (t' & [= <-] & ? & ?). done.
    + split; [done|]. intros (t' & [= <-] & ? & ?). done.
    + split; [|done]. intros _. by exists t.
    + split; [done|]. intros (t' & [= <-] & ? & ?). lia.
  - split; [done|]. by intros (t & ? & _).
Qed.

Lemma read_meter_only_passive all rest :
  (∀ a, a ∈ rest → a ∈ all) →
  Keeps (passive all) (read_meter_only rest).
Proof.
  induction rest as [|address rest IH]; intros Hsub w w';
    cbn [read_meter_only].
  - intros [= <-]. apply passive_refl.
  - assert (Hrest : ∀ a, a ∈ rest → a ∈ all)
      by (intros a Ha; apply Hsub; by right).
    apply keeps_bind_at;
      [apply passive_trans|apply get_valid_volume_passive|].
    intros [c|] w1 _ w2; [|by apply IH].
    unfold bind at 1, load_target_reading. cbv zeta.
    apply keeps_bind_at; [apply passive_trans| |].
    + intros w3 [= <-]. split; [done|]. split; [done|].
      eexists. split; [reflexivity|]. split; [done|].
      cbn [reports omap]. repeat constructor.
      apply idle_status_ok. apply Hsub. by left.
    + intros _ w3 _. by apply IH.
Qed.

(** X17: [read_meter_only] is passive: however it ends, it has saved no
    target, queued nothing and sent no valve command, and everything it
    published is a report for one of the polled addresses whose status
    is [interrupted_batch_detected] exactly when the stored target is
    non-zero and above the reported volume. *)
Theorem idle_poll_is_passive (addresses : list Z) (w w' : World) :
  final_world (read_meter_only addresses w) = Some w' →
  store w' = store w
  ∧ CMD_QUEUE w' = CMD_QUEUE w
  ∧ actions (since w w') = []
  ∧ Forall (idle_report_ok addresses (store w)) (reports (since w w')).
Proof.
  intros H.
  apply (read_meter_only_passive addresses addresses) in H; [|done].
  destruct H as (Hs & Hq & evs & He & Ha & Hr).
  by rewrite (since_app _ _ _ He).
Qed.

Lemma idle_poll_is_passive_witness :
  let w := bench [meter_reply 6 150; Arrived []; BusFault] {[6 := 200]} in
  let w' := advance
              (polled 7 1
                 (emit (Published
                          (meter_report 6 150 interrupted_batch_detected))
                    (polled 6 1 w))) in
  store w' = store w
  ∧ CMD_QUEUE w' = CMD_QUEUE w
  ∧ actions (since w w') = []
  ∧ Forall (idle_report_ok [6; 7] (store w)) (reports (since w w')).
Proof.
  intros w w'. apply (idle_poll_is_passive [6; 7] w w').
  vm_compute. reflexivity.
Defined.

(** X18: valve commands are sent once and not checked: unless the
    transmission itself raises, [open_valve] and [close_valve] return
    normally after one exchange carrying their frame, whether the
    acknowledgment is valid, damaged or missing; [write_single_register]
    reports success exactly for a non-empty answer whose first eight
    bytes pass the checksum. *)
Theorem valve_commands_unchecked
    (address register_address value : Z) (w : World) :
  line_ok (bus w (cursor w)) = true →
  open_valve address w = Ret tt (exchanged (open_command address) w)
  ∧ close_valve address w = Ret tt (exchanged (close_command address) w)
  ∧ ∃ ok,
      write_single_register address register_address value w
      = Ret ok
          (exchanged (Codec.write_request address register_address value) w)
      ∧ (ok = true
         ↔ ∃ bytes, bus w (cursor w) = Arrived bytes
                    ∧ bytes ≠ []
                    ∧ Codec.verify_crc (take 8 bytes) = true).
Proof.
  intros Hok. split; [|split].
  - by rewrite open_valve_run, Hok.
  - by rewrite close_valve_run, Hok.
  - rewrite write_single_register_run.
    destruct (bus w (cursor w)) as [| |bytes]; [done| |].
    + exists false. split; [done|]. split; [done|].
      by intros (bytes & ? & _).
    + eexists. split; [reflexivity|].
      unfold acknowledged, uart_read.
      destruct bytes as [|b bytes].
      * split; [done|]. by intros (bytes & [= <-] & ? & _).
      * cbn [take length Nat.eqb negb andb]. split.
        -- intros H. by exists (b :: bytes).
        -- by intros (bytes' & [= <-] & _ & H).
Qed.

Lemma valve_commands_unchecked_witness :
  let w := bench [Arrived [1; 2; 3]] ∅ in
  open_valve 6 w = Ret tt (exchanged (open_command 6) w)
  ∧ close_valve 6 w = Ret tt (exchanged (close_command 6) w)
  ∧ ∃ ok,
      write_single_register 6 96 1 w
      = Ret ok (exchanged (Codec.write_request 6 96 1) w)
      ∧ (ok = true
         ↔ ∃ bytes, bus w (cursor w) = Arrived bytes
                    ∧ bytes ≠ []
                    ∧ Codec.verify_crc (take 8 bytes) = true).
Proof.
  intros w. apply (valve_commands_unchecked 6 96 1 w). reflexivity.
Defined.




(** ** First boot, and the valve test script *)

Lemma written_other fault addr value targets a :
  a ≠ addr → written fault addr value targets !! a = targets !! a.
Proof.
  intros Hne. destruct fault; cbn [written];
    by rewrite ?lookup_insert_ne, ?lookup_delete_ne.
Qed.

(** Handling an address without a stored target: no dispense, at most
    one save, of a reading of that address. *)
Lemma recover_address_fresh fuel addr w :
  store w !! addr = None →
  ∃ w' evs,
    try_except (recover_address fuel addr) w = Ret tt w'
    ∧ bus w' = bus w
    ∧ trace w' = trace w ++ evs
    ∧ (∀ a, a ≠ addr → store w' !! a = store w !! a)
    ∧ (actions evs = [] ∨ ∃ c, actions evs = [Persist addr c]).
Proof.
  intros Hload. unfold try_except. rewrite recover_address_unfold, Hload.
  destruct (get_valid_volume addr 5 w) as [[c|] w1|w1|w1] eqn:Hread.
  - apply get_valid_volume_world in Hread as (k & _ & ->).
    eexists _, _. split; [reflexivity|]. split; [fields; apply polled_bus|].
    split; [trace_norm; reflexivity|]. split.
    + intros a Ha. store_norm. by apply written_other.
    + right. exists c. by actions_norm.
  - apply get_valid_volume_world in Hread as (k & _ & ->).
    eexists _, _. split; [reflexivity|]. split; [apply polled_bus|].
    split; [apply polled_trace|]. split.
    + intros a _. by rewrite polled_store.
    + left. apply actions_reads.
  - apply get_valid_volume_raise in Hread as (n & ->).
    eexists _, _. split; [reflexivity|]. split; [fields; apply polled_bus|].
    split; [trace_norm; reflexivity|]. split.
    + intros a _. by store_norm.
    + left. apply actions_reads.
  - by apply get_valid_volume_ends in Hread.
Qed.

(** X20: recovery never raises; on a device whose configured addresses
    are distinct and none of which has a stored target it always
    returns, having sent no valve command: all it did besides reading
    the meters is call the save of a reading for configured addresses,
    and the targets of other addresses are untouched. *)
Theorem first_boot_recovery (fuel : nat) (addresses : list Z) (w : World) :
  (∀ w', check_for_interrupted_jobs fuel addresses w ≠ Raise w')
  ∧ ((∀ a, a ∈ addresses → store w !! a = None) →
     NoDup addresses →
     ∃ w',
       check_for_interrupted_jobs fuel addresses w = Ret tt w'
       ∧ Forall (persists_one_of addresses) (actions (since w w'))
       ∧ ∀ a, a ∉ addresses → store w' !! a = store w !! a).
Proof.
  split; [apply check_for_interrupted_jobs_no_raise|].
  cut (∀ all,
         (∀ a, a ∈ addresses → a ∈ all) →
         (∀ a, a ∈ addresses → store w !! a = None) →
         NoDup addresses →
         ∃ w' evs,
           check_for_interrupted_jobs fuel addresses w = Ret tt w'
           ∧ trace w' = trace w ++ evs
           ∧ Forall (persists_one_of all) (actions evs)
           ∧ ∀ a, a ∉ addresses → store w' !! a = store w !! a).
  { intros Hgen Hnone Hnd.
    destruct (Hgen addresses ltac:(done) Hnone Hnd)
      as (w' & evs & Hrun & He & Hall & Hst).
    exists w'. split; [done|]. split; [|done].
    by rewrite (since_app _ _ _ He). }
  intros all. revert w.
  induction addresses as [|addr rest IH]; intros w Hsub Hnone Hnd.
  - exists w, []. split; [done|]. split; [by rewrite app_nil_r|].
    split; [constructor|done].
  - apply NoDup_cons in Hnd as [Hnotin Hnd].
    destruct (recover_address_fresh fuel addr w)
      as (w1 & evs1 & Hrun1 & _ & He1 & Hstore1 & Hcase);
      [apply Hnone; by left|].
    destruct (IH w1) as (w' & evs & Hrun & He & Hall & Hst).
    + intros a Ha. apply Hsub. by right.
    + intros a Ha. rewrite Hstore1; [apply Hnone; by right|].
      intros ->. done.
    + done.
    + exists w', (evs1 ++ evs).
      split; [|split; [|split]].
      * cbn [check_for_interrupted_jobs]. unfold bind. by rewrite Hrun1.
      * by rewrite He, He1, app_assoc.
      * rewrite actions_app. apply Forall_app. split; [|done].
        destruct Hcase as [->|(c & ->)]; [constructor|].
        repeat constructor. exists addr, c. split; [done|].
        apply Hsub. by left.
      * intros a Ha. rewrite Hst by (intros ?; apply Ha; by right).
        apply Hstore1. intros ->. apply Ha. by left.
Qed.

Lemma first_boot_recovery_witness :
  let w := bench [meter_reply 6 150; BusFault; meter_reply 8 90] ∅ in
  ∃ w',
    check_for_interrupted_jobs 0 [6; 7; 8] w = Ret tt w'
    ∧ Forall (persists_one_of [6; 7; 8]) (actions (since w w'))
    ∧ ∀ a, a ∉ [6; 7; 8] → store w' !! a = store w !! a.
Proof.
  intros w.
  apply (proj2 (first_boot_recovery 0 [6; 7; 8] w)).
  - intros a _. reflexivity.
  - apply (bool_decide_unpack _). vm_compute. reflexivity.
Defined.

Lemma opened_bus w w' k addresses :
  bus w' = bus w → opened w' k addresses = opened w k addresses.
Proof.
  intros Hb. revert k. induction addresses as [|a rest IH]; intros k; [done|].
  cbn [opened]. by rewrite Hb, IH.
Qed.

(** X5: the valve test script always returns; it spends exactly one
    exchange per address, puts an open command on the line for every
    address whose transmission does not raise, in the order of the list,
    and saves nothing. *)
Theorem valve_test_script (addresses : list Z) (w : World) :
  ∃ w',
    meter_run_main addresses w = Ret tt w'
    ∧ cursor w' = (cursor w + length addresses)%nat
    ∧ actions (since w w') = opened w (cursor w) addresses
    ∧ store w' = store w.
Proof.
  cut (∃ w' evs,
         meter_run_main addresses w = Ret tt w'
         ∧ bus w' = bus w
         ∧ cursor w' = (cursor w + length addresses)%nat
         ∧ trace w' = trace w ++ evs
         ∧ actions evs = opened w (cursor w) addresses
         ∧ store w' = store w).
  { intros (w' & evs & Hrun & _ & Hc & He & Ha & Hs). exists w'.
    by rewrite (since_app _ _ _ He). }
  revert w. induction addresses as [|addr rest IH]; intros w.
  - exists w, []. split; [done|]. split; [done|].
    split; [simpl; lia|]. split; [by rewrite app_nil_r|done].
  - cbn [meter_run_main opened]. unfold bind, try_except.
    rewrite open_valve_run.
    destruct (line_ok (bus w (cursor w))) eqn:Hok.
    + destruct (IH (exchanged (open_command addr) w))
        as (w' & evs & Hrun & Hb & Hc & He & Ha & Hs).
      exists w', (Tx (open_command addr) :: evs).
      split; [done|]. split; [done|].
      split; [rewrite Hc; fields; simpl; lia|].
      split; [rewrite He; fields; by rewrite <- app_assoc|].
      split; [|done].
      change (Tx (open_command addr) :: evs)
        with ([Tx (open_command addr)] ++ evs).
      rewrite actions_app, actions_open, Ha. fields.
      by rewrite (opened_bus w (exchanged (open_command addr) w)).
    + destruct (IH (advance w)) as (w' & evs & Hrun & Hb & Hc & He & Ha & Hs).
      exists w', evs.
      split; [done|]. split; [done|].
      split; [rewrite Hc; fields; simpl; lia|].
      split; [done|]. split; [|done]. rewrite Ha. fields.
      by rewrite (opened_bus w (advance w)).
Qed.
